(** * cloudstorage2bq: loading object-store files into warehouse tables

    A shallow embedding of [cloudstorage2bq/__main__.py] and the properties
    its specification states about it.

    The program runs over two vendor SDKs.  Their observable behaviour is
    modelled by a [world]: the object store's buckets, the warehouse's
    datasets and jobs, a failure oracle for the API calls, a logical clock
    that advances with every status poll, the log and the trace of API
    calls.  Python code is embedded in a state-and-exception monad over
    that world; the state survives a raised exception, as the log and the
    warehouse do. *)

From Stdlib Require Import String Ascii List NArith ZArith Arith Bool Lia.
From Stdlib Require Import Permutation.
Import ListNotations.

Set Implicit Arguments.

(** ** Python strings *)

(** A Python [str] is a sequence of Unicode code points. *)
Definition char := N.
Definition str := list char.

(** String literals of the source, written in ASCII. *)
Definition py (s : string) : str :=
  map N_of_ascii (list_ascii_of_string s).

Definition slash : char := 47%N.
Definition dot : char := 46%N.
Definition underscore : char := 95%N.

Definition char_eqb : char -> char -> bool := N.eqb.

Fixpoint str_eqb (a b : str) : bool :=
  match a, b with
  | [], [] => true
  | x :: a', y :: b' => char_eqb x y && str_eqb a' b'
  | _, _ => false
  end.

(** [x in xs] on a Python list of strings. *)
Definition str_in (x : str) (xs : list str) : bool :=
  existsb (str_eqb x) xs.

Definition in_range (lo hi c : char) : bool :=
  (N.leb lo c && N.leb c hi)%bool.

Definition is_lower (c : char) : bool := in_range 97%N 122%N c.
Definition is_upper (c : char) : bool := in_range 65%N 90%N c.
Definition is_digit (c : char) : bool := in_range 48%N 57%N c.

(** The letters [a-zA-Z]. *)
Definition is_letter (c : char) : bool := is_lower c || is_upper c.

(** The character class [[a-zA-Z0-9_]] of the two [re.sub] calls. *)
Definition ident_char (c : char) : bool :=
  is_lower c || is_upper c || is_digit c || char_eqb c underscore.

(** [re.sub(r"[^a-zA-Z0-9_]", "_", s)]: every match is a single character
    outside the class and is replaced by one underscore. *)
Definition re_sub_ident (s : str) : str :=
  map (fun c => if ident_char c then c else underscore) s.

(** [str.isalpha] needs the Unicode database outside ASCII.  The table is a
    parameter of the development; [latin1] below is its restriction to the
    first 256 code points. *)
Class Unicode := { unicode_alpha : char -> bool }.

Definition latin1_alpha (c : char) : bool :=
  (char_eqb c 170 || char_eqb c 181 || char_eqb c 186
   || in_range 192 214 c || in_range 216 246 c || in_range 248 255 c)%N.

Definition latin1 : Unicode := {| unicode_alpha := latin1_alpha |}.

Section Strings.
Context {U : Unicode}.

Definition char_isalpha (c : char) : bool :=
  if N.ltb c 128%N then is_letter c else unicode_alpha c.

(** [s.isalpha()]: every character is alphabetic and there is at least one. *)
Definition isalpha (s : str) : bool :=
  negb (Nat.eqb (length s) 0) && forallb char_isalpha s.

End Strings.

(** [s.rfind(c)] for a one-character needle: the highest index of [c], or
    [-1]. *)
Fixpoint rfind (c : char) (s : str) : Z :=
  match s with
  | [] => (-1)%Z
  | x :: s' =>
      let r := rfind c s' in
      if (0 <=? r)%Z then (r + 1)%Z
      else if char_eqb x c then 0%Z else (-1)%Z
  end.

(** [s.rstrip("/")] with a one-character set. *)
Fixpoint rstrip (c : char) (s : str) : str :=
  match s with
  | [] => []
  | x :: s' =>
      match rstrip c s' with
      | [] => if char_eqb x c then [] else [x]
      | t => x :: t
      end
  end.

(** [s.startswith(prefix)]. *)
Fixpoint startswith (prefix s : str) : bool :=
  match prefix, s with
  | [], _ => true
  | p :: prefix', x :: s' => char_eqb p x && startswith prefix' s'
  | _ :: _, [] => false
  end.

(** Slices [p[i:]], [p[:i]] and [p[i:j]] for indices that are not negative. *)
Definition slice_from (p : str) (i : Z) : str := skipn (Z.to_nat i) p.
Definition slice_to (p : str) (i : Z) : str := firstn (Z.to_nat i) p.
Definition slice (p : str) (i j : Z) : str :=
  firstn (Z.to_nat (j - i)) (skipn (Z.to_nat i) p).

(** ** [os.path] (posixpath) *)

(** [posixpath.basename]: [i = p.rfind(sep) + 1; return p[i:]]. *)
Definition basename (p : str) : str :=
  let i := (rfind slash p + 1)%Z in
  slice_from p i.

(** The [while filenameIndex < dotIndex] loop of [genericpath._splitext];
    [n] is [dotIndex - filenameIndex].  It answers [true] when the loop
    returns the split from inside, [false] when it runs to its end. *)
Fixpoint splitext_scan (n : nat) (p : str) (filenameIndex : Z) : bool :=
  match n with
  | O => false
  | S n' =>
      if negb (str_eqb (slice p filenameIndex (filenameIndex + 1)) [dot])
      then true
      else splitext_scan n' p (filenameIndex + 1)
  end.

(** [posixpath.splitext], that is [genericpath._splitext(p, "/", None, ".")]. *)
Definition splitext (p : str) : str * str :=
  let sepIndex := rfind slash p in
  let dotIndex := rfind dot p in
  if (sepIndex <? dotIndex)%Z
  then
    let filenameIndex := (sepIndex + 1)%Z in
    if splitext_scan (Z.to_nat (dotIndex - filenameIndex)) p filenameIndex
    then (slice_to p dotIndex, slice_from p dotIndex)
    else (p, [])
  else (p, []).

(** ** Exceptions *)

(** Failures of an API call other than not-found. *)
Inductive api_failure :=
| Forbidden | TooManyRequests | ServiceUnavailable | Conflict | BadRequest.

Inductive exn :=
| NotFound                       (* google.api_core.exceptions.NotFound *)
| ApiError (f : api_failure)     (* any other exception of the SDKs *)
| AssertionError (msg : string)
| IndexError
| JobError (payload : str).      (* what load_job.result() raises for a failed job *)

Inductive outcome (A : Type) :=
| Return (a : A)
| Raise (e : exn).

Arguments Return {A} a.
Arguments Raise {A} e.

(** ** The world: object store, warehouse, log *)

(** A load job handle.  Python compares job objects by identity, which is
    [job_id] here. *)
Record job := {
  job_id : nat;
  source_uri : str;
  dest_dataset : str;
  dest_table : str
}.

(** The calls the program makes to the two services. *)
Inductive event :=
| GetBucket (bucket_name : str)
| ListBlobs (bucket_name prefix : str) (delimiter : option char)
| GetDataset (dataset_name : str)
| CreateDataset (dataset_name : str)
| ListTables (dataset_name : str)
| LoadTableFromUri (uri dataset_name table_name : str)
| JobDone (id : nat) (answer : bool)
| JobResult (id : nat).

Inductive level := INFO | ERROR.

(** The log lines of the program, one constructor per format string. *)
Inductive message :=
| GotDataset (dataset : str)
    (* "got dataset {dataset}" *)
| ProcessingFile (file : str)
    (* "processing file {file}" *)
| TableName (table_name : str)
    (* logger.info(table_name) *)
| AlreadyExists (table_name : str)
    (* "table {table_name} already exists, skipping load" *)
| StartedLoadJob (file dataset_name table_name : str)
    (* "Started load job for {file} into {dataset_name}.{table_name}" *)
| ErrorLoading (load_job : job)
    (* "Error loading files {source_uris} into {destination}" *)
| ErrorResult (payload : str)
    (* logger.error(load_job.error_result) *)
| CompletedJob (load_job : job).
    (* "Completed job {job_id} to load files {source_uris} into {destination}" *)

Record world := {
  w_buckets : list (str * list str);   (* bucket -> object names *)
  w_datasets : list (str * list str);  (* dataset -> tables it holds *)
  w_fault : event -> option exn;       (* failure the service answers a call with *)
  w_submitted : list job;              (* every load job the warehouse accepted *)
  w_next_job : nat;                    (* identity of the next job *)
  w_done_at : nat -> option nat;       (* job -> tick from which it reports done *)
  w_error_result : nat -> option str;  (* job -> error payload of a failed load *)
  w_clock : nat;                       (* status polls answered so far *)
  w_log : list (level * message);
  w_trace : list event
}.

Definition set_trace (w : world) (t : list event) : world :=
  {| w_buckets := w_buckets w; w_datasets := w_datasets w;
     w_fault := w_fault w; w_submitted := w_submitted w;
     w_next_job := w_next_job w; w_done_at := w_done_at w;
     w_error_result := w_error_result w; w_clock := w_clock w;
     w_log := w_log w; w_trace := t |}.

Definition set_log (w : world) (l : list (level * message)) : world :=
  {| w_buckets := w_buckets w; w_datasets := w_datasets w;
     w_fault := w_fault w; w_submitted := w_submitted w;
     w_next_job := w_next_job w; w_done_at := w_done_at w;
     w_error_result := w_error_result w; w_clock := w_clock w;
     w_log := l; w_trace := w_trace w |}.

Definition set_clock (w : world) (c : nat) : world :=
  {| w_buckets := w_buckets w; w_datasets := w_datasets w;
     w_fault := w_fault w; w_submitted := w_submitted w;
     w_next_job := w_next_job w; w_done_at := w_done_at w;
     w_error_result := w_error_result w; w_clock := c;
     w_log := w_log w; w_trace := w_trace w |}.

Definition set_datasets (w : world) (d : list (str * list str)) : world :=
  {| w_buckets := w_buckets w; w_datasets := d;
     w_fault := w_fault w; w_submitted := w_submitted w;
     w_next_job := w_next_job w; w_done_at := w_done_at w;
     w_error_result := w_error_result w; w_clock := w_clock w;
     w_log := w_log w; w_trace := w_trace w |}.

Definition add_job (w : world) (j : job) : world :=
  {| w_buckets := w_buckets w; w_datasets := w_datasets w;
     w_fault := w_fault w; w_submitted := w_submitted w ++ [j];
     w_next_job := S (w_next_job w); w_done_at := w_done_at w;
     w_error_result := w_error_result w; w_clock := w_clock w;
     w_log := w_log w; w_trace := w_trace w |}.

Definition emit (e : event) (w : world) : world :=
  set_trace w (w_trace w ++ [e]).

Definition log (l : level) (m : message) (w : world) : world :=
  set_log w (w_log w ++ [(l, m)]).

Fixpoint assoc {V : Type} (k : str) (l : list (str * V)) : option V :=
  match l with
  | [] => None
  | (k', v) :: l' => if str_eqb k k' then Some v else assoc k l'
  end.

(** ** The monad of the program: state and exceptions *)

Definition M (A : Type) : Type := world -> outcome A * world.

Definition ret {A : Type} (a : A) : M A := fun w => (Return a, w).

Definition raise {A : Type} (e : exn) : M A := fun w => (Raise e, w).

Definition bind {A B : Type} (m : M A) (k : A -> M B) : M B :=
  fun w =>
    match m w with
    | (Return a, w') => k a w'
    | (Raise e, w') => (Raise e, w')
    end.

Definition lift {A : Type} (o : outcome A) : M A := fun w => (o, w).

Declare Scope py_scope.
Delimit Scope py_scope with py.
Notation "x <- m ;; k" := (bind m (fun x => k))
  (at level 61, m at next level, right associativity) : py_scope.
Notation "m ;; k" := (bind m (fun _ => k))
  (at level 61, right associativity) : py_scope.
Open Scope py_scope.

(** [try: body except NotFound: handler]. *)
Definition try_except_NotFound {A : Type} (body handler : M A) : M A :=
  fun w =>
    match body w with
    | (Raise NotFound, w') => handler w'
    | r => r
    end.

Definition logger_info (m : message) : M unit :=
  fun w => (Return tt, log INFO m w).

Definition logger_error (m : message) : M unit :=
  fun w => (Return tt, log ERROR m w).

(** An API call: it is traced, and the service may answer it with a
    failure. *)
Definition request (e : event) : M unit :=
  fun w =>
    let w' := emit e w in
    match w_fault w e with
    | Some x => (Raise x, w')
    | None => (Return tt, w')
    end.

(** ** The object store client *)

(** [client.get_bucket(bucket_name)]. *)
Definition get_bucket (bucket_name : str) : M (list str) :=
  request (GetBucket bucket_name) ;;
  fun w =>
    match assoc bucket_name (w_buckets w) with
    | Some names => (Return names, w)
    | None => (Raise NotFound, w)
    end.

(** Index of the first [c] in [s]. *)
Fixpoint find (c : char) (s : str) : option nat :=
  match s with
  | [] => None
  | x :: s' =>
      if char_eqb x c then Some O
      else match find c s' with Some k => Some (S k) | None => None end
  end.

Fixpoint dedup (l : list str) : list str :=
  match l with
  | [] => []
  | x :: l' => x :: filter (fun y => negb (str_eqb x y)) (dedup l')
  end.

(** The common prefix an object name contributes to a delimited listing:
    the name up to and including the first delimiter after [prefix]. *)
Definition common_prefix (prefix : str) (delimiter : char) (name : str)
  : option str :=
  match find delimiter (skipn (length prefix) name) with
  | Some k => Some (firstn (length prefix + k + 1) name)
  | None => None
  end.

(** The listing of a bucket's content: the objects under [prefix] and,
    with a delimiter, the common prefixes in place of the objects below
    them. *)
Definition listing (names : list str) (prefix : str)
    (delimiter : option char) : list str * list str :=
  let under := filter (startswith prefix) names in
  match delimiter with
  | None => (under, [])
  | Some d =>
      (filter (fun n => match common_prefix prefix d n with
                        | Some _ => false | None => true end) under,
       dedup (flat_map (fun n => match common_prefix prefix d n with
                                 | Some p => [p] | None => [] end) under))
  end.

(** [bucket.list_blobs(prefix=..., delimiter=...)], iterated to its end:
    the blob names and [blobs.prefixes]. *)
Definition list_blobs (bucket_name prefix : str) (delimiter : option char)
  : M (list str * list str) :=
  request (ListBlobs bucket_name prefix delimiter) ;;
  fun w =>
    match assoc bucket_name (w_buckets w) with
    | Some names => (Return (listing names prefix delimiter), w)
    | None => (Raise NotFound, w)
    end.

(** ** The warehouse client *)

Definition job_is_done (w : world) (id : nat) : bool :=
  match w_done_at w id with
  | Some t => Nat.leb t (w_clock w)
  | None => false
  end.

Definition job_succeeded (w : world) (j : job) : bool :=
  job_is_done w (job_id j)
  && match w_error_result w (job_id j) with Some _ => false | None => true end.

(** The tables of a dataset: those it held and those loaded since. *)
Definition tables_of (w : world) (dataset_name : str) : option (list str) :=
  match assoc dataset_name (w_datasets w) with
  | Some tables =>
      Some (tables ++
            map dest_table
              (filter (fun j => str_eqb (dest_dataset j) dataset_name
                                && job_succeeded w j) (w_submitted w)))
  | None => None
  end.

(** [client.get_dataset(dataset_ref)]. *)
Definition get_dataset (dataset_name : str) : M str :=
  request (GetDataset dataset_name) ;;
  fun w =>
    match assoc dataset_name (w_datasets w) with
    | Some _ => (Return dataset_name, w)
    | None => (Raise NotFound, w)
    end.

(** [client.create_dataset(bigquery.Dataset(dataset_ref))]: a dataset with
    no setting but its identifier. *)
Definition create_dataset (dataset_name : str) : M str :=
  request (CreateDataset dataset_name) ;;
  fun w =>
    match assoc dataset_name (w_datasets w) with
    | Some _ => (Raise (ApiError Conflict), w)
    | None =>
        (Return dataset_name,
         set_datasets w (w_datasets w ++ [(dataset_name, [])]))
    end.

(** [[table.table_id for table in client.list_tables(dataset_ref)]]. *)
Definition list_tables (dataset_name : str) : M (list str) :=
  request (ListTables dataset_name) ;;
  fun w =>
    match tables_of w dataset_name with
    | Some tables => (Return tables, w)
    | None => (Raise NotFound, w)
    end.

(** [client.load_table_from_uri(file, dataset_ref.table(table_name), ...)]
    with the fixed PARQUET source format. *)
Definition load_table_from_uri (file dataset_name table_name : str) : M job :=
  request (LoadTableFromUri file dataset_name table_name) ;;
  fun w =>
    let load_job := {| job_id := w_next_job w; source_uri := file;
                       dest_dataset := dataset_name;
                       dest_table := table_name |} in
    (Return load_job, add_job w load_job).

(** [load_job.done()]: one status poll. *)
Definition job_done (load_job : job) (w : world) : bool * world :=
  let answer := job_is_done w (job_id load_job) in
  (answer,
   set_clock (emit (JobDone (job_id load_job) answer) w) (S (w_clock w))).

(** [load_job.result()] on a job that reported done: it returns for a job
    that loaded, and raises the exception made from the [error_result] for
    a job that failed. *)
Definition job_result (load_job : job) : M unit :=
  fun w =>
    let w' := emit (JobResult (job_id load_job)) w in
    match w_error_result w (job_id load_job) with
    | Some payload => (Raise (JobError payload), w')
    | None => (Return tt, w')
    end.

(** ** The program *)

(** [list_files]: the [gs://] URI of every blob under [prefix]. *)
Definition list_files (bucket_name prefix : str) (delimeter : option char)
  : M (list str) :=
  _ <- get_bucket bucket_name ;;
  blobs <- list_blobs bucket_name prefix delimeter ;;
  ret (map (fun name => py "gs://" ++ bucket_name ++ py "/" ++ name)
           (fst blobs)).

(** Lines 56-64: [try: client.get_dataset ... except NotFound:
    client.create_dataset ...]. *)
Definition ensure_dataset (dataset_name : str) : M str :=
  try_except_NotFound
    (dataset <- get_dataset dataset_name ;;
     logger_info (GotDataset dataset) ;;
     ret dataset)
    (create_dataset dataset_name).

(** [s[i]]. *)
Definition getitem (s : str) (i : nat) : outcome str :=
  match nth_error s i with
  | Some c => Return [c]
  | None => Raise IndexError
  end.

(** [assert b, msg]. *)
Definition assert (b : bool) (msg : string) : outcome unit :=
  if b then Return tt else Raise (AssertionError msg).

(** Lines 79-81: the file name without its extension, sanitized. *)
Definition sanitized_base (file : str) : str :=
  let table_name := fst (splitext (basename file)) in
  re_sub_ident table_name.

(** The identifier the skip check and the submission use. *)
Definition table_id (table_name_prefix file : str) : str :=
  table_name_prefix ++ sanitized_base file.

(** [list.remove(x)]: the first element that is [x] goes. *)
Fixpoint remove_job (load_job : job) (jobs : list job) : list job :=
  match jobs with
  | [] => []
  | j :: jobs' =>
      if Nat.eqb (job_id j) (job_id load_job) then jobs'
      else j :: remove_job load_job jobs'
  end.

(** Lines 105-122: the body of [for load_job in jobs]; it answers the list
    [jobs] as the iteration leaves it. *)
Definition poll_job (load_job : job) (jobs : list job) : M (list job) :=
  fun w =>
    let (d, w1) := job_done load_job w in
    if negb d then (Return jobs, w1)
    else
      (job_result load_job ;;
       (fun w2 =>
          match w_error_result w2 (job_id load_job) with
          | Some payload =>
              (logger_error (ErrorLoading load_job) ;;
               logger_error (ErrorResult payload)) w2
          | None => logger_info (CompletedJob load_job) w2
          end) ;;
       ret (remove_job load_job jobs)) w1.

(** Line 104: [for load_job in jobs] over a list the body shrinks.  The
    list iterator holds an index [i] and stops when [i] is past the end of
    the list as it is then.  [None] is a run out of [fuel]. *)
Fixpoint for_jobs (fuel i : nat) (jobs : list job) (w : world)
  : option (outcome (list job) * world) :=
  match nth_error jobs i with
  | None => Some (Return jobs, w)
  | Some load_job =>
      match fuel with
      | O => None
      | S fuel' =>
          match poll_job load_job jobs w with
          | (Return jobs', w') => for_jobs fuel' (S i) jobs' w'
          | (Raise e, w') => Some (Raise e, w')
          end
      end
  end.

(** One iteration of [while not done]: a scan of the outstanding jobs. *)
Definition scan (jobs : list job) (w : world)
  : option (outcome (list job) * world) :=
  for_jobs (length jobs) 0 jobs w.

(** Lines 102-125: [while not done].  [None] is a loop still running after
    [fuel] iterations. *)
Fixpoint poll_until_done (fuel : nat) (jobs : list job) (w : world)
  : option (outcome unit * world) :=
  match fuel with
  | O => None
  | S fuel' =>
      match scan jobs w with
      | None => None
      | Some (Raise e, w') => Some (Raise e, w')
      | Some (Return jobs', w') =>
          if Nat.eqb (length jobs') 0 then Some (Return tt, w')
          else poll_until_done fuel' jobs' w'
      end
  end.

Section Program.
Context {U : Unicode}.

(** Line 83: [assert table_name[0].isalpha(), ...]. *)
Definition leading_letter_check (table_name : str) : outcome unit :=
  match getitem table_name 0 with
  | Return c => assert (isalpha c) "table_name must start with a letter"
  | Raise e => Raise e
  end.

(** Lines 79-84: the table identifier of a file. *)
Definition table_name_of_file (table_name_prefix file : str) : M str :=
  let table_name := sanitized_base file in
  logger_info (TableName table_name) ;;
  lift (leading_letter_check table_name) ;;
  ret (table_name_prefix ++ table_name).

(** Lines 77-100: the body of [for file in files]; it answers the list
    [jobs] as the iteration leaves it. *)
Definition process_file (dataset_name table_name_prefix : str)
    (all_tables_in_dataset : list str) (jobs : list job) (file : str)
  : M (list job) :=
  logger_info (ProcessingFile file) ;;
  table_name <- table_name_of_file table_name_prefix file ;;
  if str_in table_name all_tables_in_dataset
  then
    logger_info (AlreadyExists table_name) ;;
    ret jobs
  else
    load_job <- load_table_from_uri file dataset_name table_name ;;
    logger_info (StartedLoadJob file dataset_name table_name) ;;
    ret (jobs ++ [load_job]).

(** Lines 75-100: [for file in files]. *)
Fixpoint submit_jobs (dataset_name table_name_prefix : str)
    (all_tables_in_dataset : list str) (files : list str) (jobs : list job)
  : M (list job) :=
  match files with
  | [] => ret jobs
  | file :: files' =>
      jobs' <- process_file dataset_name table_name_prefix
                 all_tables_in_dataset jobs file ;;
      submit_jobs dataset_name table_name_prefix all_tables_in_dataset
        files' jobs'
  end.

(** Lines 52-100: everything before the polling loop. *)
Definition start_jobs (bucket_name bucket_prefix dataset_name
    table_name_prefix : str) : M (list job) :=
  _ <- ensure_dataset dataset_name ;;
  all_tables_in_dataset <- list_tables dataset_name ;;
  files <- list_files bucket_name bucket_prefix None ;;
  submit_jobs dataset_name table_name_prefix all_tables_in_dataset files [].

(** [load_prefix_to_dataset].  [None]: the polling loop is still running
    after [fuel] iterations. *)
Definition load_prefix_to_dataset (fuel : nat) (bucket_name bucket_prefix
    dataset_name table_name_prefix : str) (w : world)
  : option (outcome unit * world) :=
  match start_jobs bucket_name bucket_prefix dataset_name
          table_name_prefix w with
  | (Raise e, w1) => Some (Raise e, w1)
  | (Return jobs, w1) => poll_until_done fuel jobs w1
  end.

(** Lines 143-153: [for prefix in blobs.prefixes]. *)
Fixpoint for_prefixes (fuel : nat) (bucket_name table_name_prefix : str)
    (prefixes : list str) (w : world) : option (outcome unit * world) :=
  match prefixes with
  | [] => Some (Return tt, w)
  | prefix :: prefixes' =>
      let prefix := rstrip slash prefix in
      let dataset_name := re_sub_ident prefix in
      match load_prefix_to_dataset fuel bucket_name prefix dataset_name
              table_name_prefix w with
      | Some (Return _, w') =>
          for_prefixes fuel bucket_name table_name_prefix prefixes' w'
      | r => r
      end
  end.

(** [load_all_datasets].  [fuel] bounds each polling loop. *)
Definition load_all_datasets (fuel : nat) (bucket_name bucket_prefix
    table_name_prefix : str) (w : world) : option (outcome unit * world) :=
  match (_ <- get_bucket bucket_name ;;
         list_blobs bucket_name bucket_prefix (Some slash)) w with
  | (Raise e, w1) => Some (Raise e, w1)
  | (Return blobs, w1) =>
      for_prefixes fuel bucket_name table_name_prefix (snd blobs) w1
  end.

End Program.

(** ** Worlds to run the program in *)

Definition no_fault : event -> option exn := fun _ => None.

(** A world with one bucket [b], no dataset, and jobs that report done
    [delay] polls after the start and load without error. *)
Definition store (names : list str) (delay : nat) : world :=
  {| w_buckets := [(py "b", names)]; w_datasets := [];
     w_fault := no_fault; w_submitted := []; w_next_job := 0;
     w_done_at := fun _ => Some delay; w_error_result := fun _ => None;
     w_clock := 0; w_log := []; w_trace := [] |}.

Definition with_datasets (d : list (str * list str)) (w : world) : world :=
  set_datasets w d.

Definition with_fault (f : event -> option exn) (w : world) : world :=
  {| w_buckets := w_buckets w; w_datasets := w_datasets w;
     w_fault := f; w_submitted := w_submitted w;
     w_next_job := w_next_job w; w_done_at := w_done_at w;
     w_error_result := w_error_result w; w_clock := w_clock w;
     w_log := w_log w; w_trace := w_trace w |}.

Definition outcome_of {A : Type} (r : option (outcome A * world))
  : option (outcome A) :=
  match r with Some (o, _) => Some o | None => None end.


Definition log_of {A : Type} (r : option (outcome A * world))
  : list (level * message) :=
  match r with Some (_, w) => w_log w | None => [] end.

(** The job the warehouse creates for [file] in world [w]. *)
Definition new_job (w : world) (file dataset_name table_name : str) : job :=
  {| job_id := w_next_job w; source_uri := file;
     dest_dataset := dataset_name; dest_table := table_name |}.

(** ** Scenarios *)

(** Two objects of one prefix whose names differ only in a character the
    sanitizer replaces. *)
Definition colliding_files : list str :=
  [py "gs://b/raw/x/a-b.parquet"; py "gs://b/raw/x/a_b.parquet"].

(** The table [orders_2024] is in the dataset before the run. *)
Definition orders_files : list str :=
  [py "gs://b/raw/orders/orders_2024.parquet";
   py "gs://b/raw/orders/orders_2025.parquet"].

Definition orders_snapshot : list str := [py "orders_2024"].

(** The file of the table [orders_2024] behind a file whose name starts
    with a digit. *)
Definition unreached_files : list str :=
  [py "gs://b/raw/orders/1bad.parquet";
   py "gs://b/raw/orders/orders_2024.parquet"].

(** A file whose base name starts with a digit, for the prefix [t_]. *)
Definition digit_file : str := py "gs://b/raw/orders/2024.parquet".

(** Three outstanding jobs in a world where jobs report done from the
    third poll on. *)
Definition three_jobs : list job :=
  [ {| job_id := 0; source_uri := py "gs://b/p/a.parquet";
       dest_dataset := py "p"; dest_table := py "a" |};
    {| job_id := 1; source_uri := py "gs://b/p/b.parquet";
       dest_dataset := py "p"; dest_table := py "b" |};
    {| job_id := 2; source_uri := py "gs://b/p/c.parquet";
       dest_dataset := py "p"; dest_table := py "c" |} ].

Definition first_job : job :=
  {| job_id := 0; source_uri := py "gs://b/p/a.parquet";
     dest_dataset := py "p"; dest_table := py "a" |}.

(** The same world with other fates for its jobs. *)
Definition with_jobs (done_at : nat -> option nat)
    (error_result : nat -> option str) (w : world) : world :=
  {| w_buckets := w_buckets w; w_datasets := w_datasets w;
     w_fault := w_fault w; w_submitted := w_submitted w;
     w_next_job := w_next_job w; w_done_at := done_at;
     w_error_result := error_result; w_clock := w_clock w;
     w_log := w_log w; w_trace := w_trace w |}.

(** Job 0 is done and failed; no other job ever reports done. *)
Definition failed_and_stuck : world :=
  with_jobs (fun id => if Nat.eqb id 0 then Some 0 else None)
    (fun id => if Nat.eqb id 0 then Some (py "bad file") else None)
    (store [] 0).

(** ** What a run left behind *)

(** The jobs accepted, the lines logged and the calls made between world
    [w] and a later world [w']. *)
Definition submitted_since (w w' : world) : list job :=
  skipn (length (w_submitted w)) (w_submitted w').

Definition logged_since (w w' : world) : list (level * message) :=
  skipn (length (w_log w)) (w_log w').

Definition trace_since (w w' : world) : list event :=
  skipn (length (w_trace w)) (w_trace w').

Fixpoint take_while {A : Type} (f : A -> bool) (l : list A) : list A :=
  match l with
  | [] => []
  | x :: l' => if f x then x :: take_while f l' else []
  end.

(** The files of a listing that get a load job: those whose identifier is
    not in the snapshot of the dataset's tables. *)
Definition to_load (table_name_prefix : str)
    (all_tables_in_dataset : list str) (files : list str) : list str :=
  filter (fun file =>
            negb (str_in (table_id table_name_prefix file)
                    all_tables_in_dataset)) files.

Section Reached.
Context {U : Unicode}.

(** An iteration of [for file in files] that ends without an exception:
    the check passes and the load call, if one is made, is accepted. *)
Definition file_passes (fault : event -> option exn) (dataset_name
    table_name_prefix : str) (all_tables_in_dataset : list str)
    (file : str) : bool :=
  match leading_letter_check (sanitized_base file) with
  | Raise _ => false
  | Return _ =>
      let table_name := table_id table_name_prefix file in
      str_in table_name all_tables_in_dataset
      || match fault (LoadTableFromUri file dataset_name table_name) with
         | Some _ => false
         | None => true
         end
  end.

(** The files the loop gets through before an exception ends it. *)
Definition reached (fault : event -> option exn) (dataset_name
    table_name_prefix : str) (all_tables_in_dataset : list str)
    (files : list str) : list str :=
  take_while (file_passes fault dataset_name table_name_prefix
                all_tables_in_dataset) files.

End Reached.

(** ** What a scan of the jobs observes *)

(** The jobs a stretch of the trace shows reporting done. *)
Definition completed (evs : list event) : list nat :=
  flat_map (fun e => match e with
                     | JobDone id true => [id]
                     | _ => []
                     end) evs.

(** A stretch of the trace made of status polls only, every poll that
    answers done followed at once by the retrieval of that job's result. *)
Fixpoint polls_ok (evs : list event) : bool :=
  match evs with
  | [] => true
  | JobDone _ false :: evs' => polls_ok evs'
  | JobDone id true :: JobResult id' :: evs' =>
      Nat.eqb id id' && polls_ok evs'
  | _ => false
  end.

(** [iterates i jobs w o w']: the iterator of [for load_job in jobs], at
    index [i] of the list [jobs] in world [w], runs to its end with the
    list [jobs'] left, [o = Return jobs'], or to the exception of an
    iteration, [o = Raise e], and leaves the world [w']. *)
Inductive iterates
  : nat -> list job -> world -> outcome (list job) -> world -> Prop :=
| iterates_stop (i : nat) (jobs : list job) (w : world) :
    nth_error jobs i = None ->
    iterates i jobs w (Return jobs) w
| iterates_next (i : nat) (jobs : list job) (w : world) (load_job : job)
    (jobs1 : list job) (w1 : world) (o : outcome (list job)) (w' : world) :
    nth_error jobs i = Some load_job ->
    poll_job load_job jobs w = (Return jobs1, w1) ->
    iterates (S i) jobs1 w1 o w' ->
    iterates i jobs w o w'
| iterates_raise (i : nat) (jobs : list job) (w : world) (load_job : job)
    (e : exn) (w1 : world) :
    nth_error jobs i = Some load_job ->
    poll_job load_job jobs w = (Raise e, w1) ->
    iterates i jobs w (Raise e) w1.

(** ** What the walker asks the warehouse for *)





(** ** Names and shapes used by the further properties *)

(** Line 39: the URI of a blob. *)
Definition gs_uri (bucket_name name : str) : str :=
  py "gs://" ++ bucket_name ++ py "/" ++ name.

(** The calls that are requests to a service, as opposed to the polls of
    a job's status and the retrieval of its result. *)
Definition is_request (e : event) : bool :=
  match e with
  | JobDone _ _ | JobResult _ => false
  | _ => true
  end.

(** [steps R m]: the computation [m] takes every world to one related to
    it by [R], whatever its outcome. *)
Definition steps (R : world -> world -> Prop) {A : Type} (m : M A) : Prop :=
  forall w : world, R w (snd (m w)).

(** A relation that every request, log line and dataset creation keeps. *)
Definition gentle (R : world -> world -> Prop) : Prop :=
  (forall w, R w w)
  /\ (forall a b c, R a b -> R b c -> R a c)
  /\ (forall e w, is_request e = true -> R w (emit e w))
  /\ (forall l m w, R w (log l m w))
  /\ (forall w d, R w (set_datasets w d)).

(** What no part of the program changes: the answers the services will
    give. *)
Definition same_service (w w' : world) : Prop :=
  w_done_at w' = w_done_at w
  /\ w_error_result w' = w_error_result w
  /\ w_fault w' = w_fault w
  /\ w_buckets w' = w_buckets w.

(** The world moved on by requests only, with no job submitted. *)
Definition only_requests (w w' : world) : Prop :=
  (exists evs, w_trace w' = w_trace w ++ evs
               /\ forallb is_request evs = true)
  /\ w_clock w' = w_clock w.

Definition nothing_submitted (w w' : world) : Prop :=
  w_submitted w' = w_submitted w /\ w_next_job w' = w_next_job w.

(** Line 118: the line logged for a job the loop removes. *)
Definition completion_line (load_job : job) : level * message :=
  (INFO, CompletedJob load_job).

(** The jobs with an error result that report done from some tick on. *)
Definition fails (w : world) (j : job) : Prop :=
  w_done_at w (job_id j) <> None /\ w_error_result w (job_id j) <> None.

(** The second, fourth, ... element of a list. *)
Fixpoint every_other (l : list job) : list job :=
  match l with
  | _ :: b :: r => b :: every_other r
  | _ => []
  end.

(** The tables [list_tables] answers for a dataset once it has been
    fetched or created: those the dataset holds, if it is there, and those
    loaded into it since. *)
Definition catalog (w : world) (dataset_name : str) : list str :=
  match assoc dataset_name (w_datasets w) with
  | Some tables => tables
  | None => []
  end
  ++ map dest_table
       (filter (fun j => str_eqb (dest_dataset j) dataset_name
                         && job_succeeded w j) (w_submitted w)).

(** * Properties *)

(** ** The sanitizer *)

Ltac to_prop :=
  repeat match goal with
         | H : _ |- _ =>
             progress rewrite ?orb_true_iff, ?andb_true_iff, ?orb_false_iff,
               ?andb_false_iff, ?N.leb_le, ?N.leb_gt, ?N.eqb_eq, ?N.eqb_neq,
               ?N.ltb_lt, ?N.ltb_ge in H
         end;
  rewrite ?orb_true_iff, ?andb_true_iff, ?orb_false_iff, ?andb_false_iff,
    ?N.leb_le, ?N.leb_gt, ?N.eqb_eq, ?N.eqb_neq, ?N.ltb_lt, ?N.ltb_ge.

Lemma ident_char_underscore : ident_char underscore = true.
Proof. reflexivity. Qed.

Lemma ident_char_sub (c : char) :
  ident_char (if ident_char c then c else underscore) = true.
Proof.
  destruct (ident_char c) eqn:E; [exact E | reflexivity].
Qed.

Lemma ident_char_cases (c : char) :
  ident_char c = (is_letter c || is_digit c || char_eqb c underscore).
Proof. reflexivity. Qed.

Lemma ident_char_ascii (c : char) :
  ident_char c = true -> N.ltb c 128 = true.
Proof.
  unfold ident_char, is_lower, is_upper, is_digit, in_range, char_eqb,
    underscore.
  intros H. to_prop. lia.
Qed.

Lemma re_sub_ident_valid (s : str) : forallb ident_char (re_sub_ident s) = true.
Proof.
  induction s as [|c s IH]; simpl; [reflexivity|].
  now rewrite ident_char_sub, IH.
Qed.

Lemma re_sub_ident_fixed (s : str) :
  forallb ident_char s = true -> re_sub_ident s = s.
Proof.
  induction s as [|c s IH]; simpl; [reflexivity|].
  intros H. apply andb_true_iff in H. destruct H as [Hc Hs].
  now rewrite Hc, (IH Hs).
Qed.

Lemma re_sub_ident_nil (s : str) : re_sub_ident s = [] <-> s = [].
Proof.
  destruct s; simpl; split; intros E; try reflexivity; discriminate E.
Qed.

Lemma re_sub_ident_app (a b : str) :
  re_sub_ident (a ++ b) = re_sub_ident a ++ re_sub_ident b.
Proof. apply map_app. Qed.

Section SanitizerChecks.
Context {U : Unicode}.

Lemma isalpha_one (c : char) : isalpha [c] = char_isalpha c.
Proof. unfold isalpha. simpl. apply andb_true_r. Qed.

Lemma char_isalpha_ident (c : char) :
  ident_char c = true -> char_isalpha c = is_letter c.
Proof.
  intros H. unfold char_isalpha. now rewrite (ident_char_ascii c H).
Qed.

Lemma leading_letter_check_nil : leading_letter_check [] = Raise IndexError.
Proof. reflexivity. Qed.

Lemma leading_letter_check_cons (c : char) (t : str) :
  leading_letter_check (c :: t)
  = assert (char_isalpha c) "table_name must start with a letter".
Proof. unfold leading_letter_check. simpl. now rewrite isalpha_one. Qed.

Lemma leading_letter_check_sanitized (c : char) (t : str) :
  ident_char c = true ->
  leading_letter_check (c :: t)
  = assert (is_letter c) "table_name must start with a letter".
Proof.
  intros H. now rewrite leading_letter_check_cons, (char_isalpha_ident c H).
Qed.

End SanitizerChecks.

(** C5.  For every input string the sanitizer's output holds only letters,
    digits and underscores: it has the length of the input, a character of
    the input outside that set is an underscore in the output, and a
    character inside the set stays where it is. *)
Theorem sanitizer_output_charset (s : str) :
  forallb ident_char (re_sub_ident s) = true
  /\ length (re_sub_ident s) = length s
  /\ (forall i : nat,
        nth_error (re_sub_ident s) i
        = option_map (fun c => if ident_char c then c else underscore)
            (nth_error s i))
  /\ (forall c : char,
        ident_char c = true
        <-> is_letter c = true \/ is_digit c = true \/ c = underscore).
Proof.
  split; [apply re_sub_ident_valid|].
  split; [apply length_map|].
  split.
  - intros i. unfold re_sub_ident. apply nth_error_map.
  - intros c. rewrite ident_char_cases. unfold char_eqb.
    rewrite !orb_true_iff, N.eqb_eq. tauto.
Qed.

(** C6.  The sanitizer is idempotent: a string of letters, digits and
    underscores is returned unchanged, and sanitizing twice is sanitizing
    once, for every string. *)
Theorem sanitizer_idempotent (s : str) (Hvalid : forallb ident_char s = true) :
  re_sub_ident s = s
  /\ forall t : str, re_sub_ident (re_sub_ident t) = re_sub_ident t.
Proof.
  split; [now apply re_sub_ident_fixed|].
  intros t. apply re_sub_ident_fixed, re_sub_ident_valid.
Qed.

Section TableIdentifier.
Context {U : Unicode}.

Lemma table_name_of_file_run (table_name_prefix file : str) (w : world) :
  table_name_of_file table_name_prefix file w
  = (match leading_letter_check (sanitized_base file) with
     | Return _ => Return (table_name_prefix ++ sanitized_base file)
     | Raise e => Raise e
     end,
     log INFO (TableName (sanitized_base file)) w).
Proof.
  unfold table_name_of_file, bind, logger_info, lift, ret.
  destruct (leading_letter_check (sanitized_base file)); reflexivity.
Qed.

(** C3.  After the substitution the assertion fails exactly when the
    result has a first character that is not a letter, and the check passes
    exactly when the first character is a letter; the table identifier is
    then returned and the iteration goes on. *)
Theorem leading_letter_check_iff (s : str) :
  (leading_letter_check (re_sub_ident s)
     = Raise (AssertionError "table_name must start with a letter")
   <-> exists c rest, re_sub_ident s = c :: rest /\ is_letter c = false)
  /\ (leading_letter_check (re_sub_ident s) = Return tt
      <-> exists c rest, re_sub_ident s = c :: rest /\ is_letter c = true)
  /\ (forall (table_name_prefix file : str) (w : world),
        fst (table_name_of_file table_name_prefix file w)
        = match leading_letter_check (sanitized_base file) with
          | Return _ => Return (table_name_prefix ++ sanitized_base file)
          | Raise e => Raise e
          end).
Proof.
  assert (Hv := re_sub_ident_valid s).
  split; [|split].
  - destruct (re_sub_ident s) as [|c t] eqn:E.
    + rewrite leading_letter_check_nil. split; [discriminate|].
      intros (c & rest & H & _). discriminate H.
    + simpl in Hv. apply andb_true_iff in Hv. destruct Hv as [Hc _].
      rewrite (leading_letter_check_sanitized c t Hc). unfold assert.
      split.
      * destruct (is_letter c) eqn:L; [discriminate|].
        intros _. now exists c, t.
      * intros (c' & rest & H & L). injection H as <- <-.
        now rewrite L.
  - destruct (re_sub_ident s) as [|c t] eqn:E.
    + rewrite leading_letter_check_nil. split; [discriminate|].
      intros (c & rest & H & _). discriminate H.
    + simpl in Hv. apply andb_true_iff in Hv. destruct Hv as [Hc _].
      rewrite (leading_letter_check_sanitized c t Hc). unfold assert.
      split.
      * destruct (is_letter c) eqn:L; [|discriminate].
        intros _. now exists c, t.
      * intros (c' & rest & H & L). injection H as <- <-.
        now rewrite L.
  - intros. now rewrite table_name_of_file_run.
Qed.

End TableIdentifier.

(** ** Paths *)

Lemma char_eqb_eq (a b : char) : char_eqb a b = true <-> a = b.
Proof. apply N.eqb_eq. Qed.

Lemma char_eqb_refl (a : char) : char_eqb a a = true.
Proof. apply N.eqb_refl. Qed.

Lemma str_eqb_eq (a b : str) : str_eqb a b = true <-> a = b.
Proof.
  revert b. induction a as [|x a IH]; intros [|y b]; simpl;
    try (split; [discriminate | discriminate]); [tauto|].
  rewrite andb_true_iff, char_eqb_eq, IH.
  split; [intros [-> ->]; reflexivity | intros E; injection E; auto].
Qed.

Lemma str_eqb_refl (a : str) : str_eqb a a = true.
Proof. now apply str_eqb_eq. Qed.

Lemma str_in_In (x : str) (xs : list str) : str_in x xs = true <-> In x xs.
Proof.
  unfold str_in. rewrite existsb_exists. split.
  - intros (y & Hy & E). apply str_eqb_eq in E. now subst.
  - intros H. exists x. split; [exact H | apply str_eqb_refl].
Qed.

Lemma rfind_bounds (c : char) (s : str) :
  (-1 <= rfind c s < Z.of_nat (length s))%Z.
Proof.
  induction s as [|x s IH]; simpl length; [simpl; lia|].
  cbn [rfind]. rewrite Nat2Z.inj_succ.
  destruct (0 <=? rfind c s)%Z eqn:E; [lia|].
  destruct (char_eqb x c); lia.
Qed.

Lemma rfind_app_last (c : char) (s : str) :
  rfind c (s ++ [c]) = Z.of_nat (length s).
Proof.
  induction s as [|x s IH].
  - simpl. now rewrite char_eqb_refl.
  - cbn [app rfind length]. rewrite IH, Nat2Z.inj_succ.
    destruct (0 <=? Z.of_nat (length s))%Z eqn:E; [lia|].
    apply Z.leb_gt in E. lia.
Qed.

Lemma rfind_last_inv (c : char) (s : str) :
  s <> [] -> rfind c s = (Z.of_nat (length s) - 1)%Z ->
  exists p, s = p ++ [c].
Proof.
  induction s as [|x s IH]; [congruence|]. intros _.
  cbn [rfind length]. rewrite Nat2Z.inj_succ.
  destruct (0 <=? rfind c s)%Z eqn:E.
  - intros H. destruct s as [|y s'].
    + simpl in E. discriminate E.
    + destruct IH as [p Hp]; [discriminate | lia |].
      exists (x :: p). now rewrite Hp.
  - destruct (char_eqb x c) eqn:X; intros H.
    + apply char_eqb_eq in X. subst x.
      destruct s; [now exists [] | simpl length in H; lia].
    + lia.
Qed.

Lemma skipn_nil_inv {A : Type} (n : nat) (l : list A) :
  skipn n l = [] -> length l <= n.
Proof.
  intros H. assert (L := length_skipn n l). rewrite H in L. simpl in L. lia.
Qed.

Lemma basename_nil (p : str) :
  basename p = [] <-> p = [] \/ exists q, p = q ++ [slash].
Proof.
  unfold basename, slice_from. assert (B := rfind_bounds slash p). split.
  - intros H. destruct p as [|x p']; [now left | right].
    apply skipn_nil_inv in H.
    apply rfind_last_inv; [discriminate | lia].
  - intros [-> | [q ->]]; [reflexivity|].
    rewrite rfind_app_last. apply skipn_all2. rewrite length_app. simpl. lia.
Qed.

Lemma splitext_scan_true (n : nat) (p : str) (i : Z) :
  splitext_scan n p i = true -> n <> 0.
Proof. destruct n; [discriminate | discriminate]. Qed.

Lemma splitext_root_nil (p : str) : fst (splitext p) = [] <-> p = [].
Proof.
  split; [|intros ->; reflexivity].
  unfold splitext. assert (S := rfind_bounds slash p).
  assert (D := rfind_bounds dot p).
  destruct (rfind slash p <? rfind dot p)%Z eqn:E; [|exact (fun H => H)].
  destruct (splitext_scan _ p _) eqn:Sc; [|exact (fun H => H)].
  apply splitext_scan_true in Sc. unfold slice_to. simpl fst.
  destruct p as [|x p']; [reflexivity|].
  destruct (Z.to_nat (rfind dot (x :: p'))) eqn:N; [lia | discriminate].
Qed.

Lemma sanitized_base_nil (file : str) :
  sanitized_base file = [] <-> basename file = [].
Proof.
  unfold sanitized_base. now rewrite re_sub_ident_nil, splitext_root_nil.
Qed.

Lemma sanitized_base_valid (file : str) :
  forallb ident_char (sanitized_base file) = true.
Proof. apply re_sub_ident_valid. Qed.

(** ** One file of the submission loop *)

Section OneFile.
Context {U : Unicode}.

Lemma process_file_run (dataset_name table_name_prefix : str)
    (all_tables_in_dataset : list str) (jobs : list job) (file : str)
    (w : world) :
  let table_name := table_id table_name_prefix file in
  let w1 := log INFO (TableName (sanitized_base file))
              (log INFO (ProcessingFile file) w) in
  let call := LoadTableFromUri file dataset_name table_name in
  process_file dataset_name table_name_prefix all_tables_in_dataset jobs
    file w
  = match leading_letter_check (sanitized_base file) with
    | Raise e => (Raise e, w1)
    | Return _ =>
        if str_in table_name all_tables_in_dataset
        then (Return jobs, log INFO (AlreadyExists table_name) w1)
        else
          match w_fault w call with
          | Some x => (Raise x, emit call w1)
          | None =>
              let load_job := new_job w file dataset_name table_name in
              (Return (jobs ++ [load_job]),
               log INFO (StartedLoadJob file dataset_name table_name)
                 (add_job (emit call w1) load_job))
          end
    end.
Proof.
  intros table_name w1 call. unfold process_file.
  unfold bind at 1. unfold logger_info at 1.
  unfold bind at 1. rewrite table_name_of_file_run.
  fold w1. fold (table_id table_name_prefix file). fold table_name.
  destruct (leading_letter_check (sanitized_base file)) as [[]|e];
    [|reflexivity].
  destruct (str_in table_name all_tables_in_dataset); [reflexivity|].
  unfold load_table_from_uri, request. fold call.
  unfold bind, logger_info, ret.
  change (w_fault w1 call) with (w_fault w call).
  destruct (w_fault w call); reflexivity.
Qed.

(** C10.  The leading-letter check looks at the sanitized base name, before
    [table_name_prefix] is put in front of it: its verdict does not depend
    on the prefix, so a prefix that begins with a letter does not make a
    base name that begins with a digit acceptable, and the prefixed
    identifier that the skip check and the submission use is not checked
    at all. *)
Theorem check_precedes_prefix (dataset_name table_name_prefix : str)
    (all_tables_in_dataset : list str) (jobs : list job) (file : str)
    (w : world) :
  let table_name := table_name_prefix ++ sanitized_base file in
  fst (table_name_of_file table_name_prefix file w)
  = match leading_letter_check (sanitized_base file) with
    | Return _ => Return table_name
    | Raise e => Raise e
    end
  /\ fst (process_file dataset_name table_name_prefix all_tables_in_dataset
            jobs file w)
     = match leading_letter_check (sanitized_base file) with
       | Raise e => Raise e
       | Return _ =>
           if str_in table_name all_tables_in_dataset then Return jobs
           else
             match w_fault w
                     (LoadTableFromUri file dataset_name table_name) with
             | Some x => Raise x
             | None =>
                 Return (jobs ++ [new_job w file dataset_name table_name])
             end
       end
  /\ fst (table_name_of_file (py "t_") (py "gs://b/raw/orders/2024.parquet")
            w)
     = Raise (AssertionError "table_name must start with a letter")
  /\ fst (table_name_of_file (py "2024_") (py "gs://b/raw/orders/jan.parquet")
            w)
     = Return (py "2024_jan").
Proof.
  intros table_name. split; [|split; [|split]].
  - now rewrite table_name_of_file_run.
  - rewrite process_file_run. fold (table_id table_name_prefix file).
    unfold table_id. fold table_name.
    destruct (leading_letter_check (sanitized_base file)) as [[]|e];
      [|reflexivity].
    destruct (str_in table_name all_tables_in_dataset); [reflexivity|].
    destruct (w_fault w _); reflexivity.
  - rewrite table_name_of_file_run. reflexivity.
  - rewrite table_name_of_file_run. reflexivity.
Qed.

(** C9, as the code has it.  The check fails with an index error exactly
    for a file whose base name is empty, which is a file whose name ends in
    a slash (or is empty): there is no first character to test. *)
Theorem empty_base_name_index_error (file : str) :
  (leading_letter_check (sanitized_base file) = Raise IndexError
   <-> fst (splitext (basename file)) = [])
  /\ (fst (splitext (basename file)) = []
      <-> file = [] \/ exists q, file = q ++ [slash])
  /\ (forall (table_name_prefix : str) (w : world),
        fst (table_name_of_file table_name_prefix file w) = Raise IndexError
        <-> sanitized_base file = [])
  /\ leading_letter_check (sanitized_base (py "gs://b/raw/orders/"))
     = Raise IndexError.
Proof.
  assert (K : leading_letter_check (sanitized_base file) = Raise IndexError
              <-> sanitized_base file = []).
  { assert (Hv := sanitized_base_valid file).
    destruct (sanitized_base file) as [|c t].
    - now rewrite leading_letter_check_nil.
    - simpl in Hv. apply andb_true_iff in Hv. destruct Hv as [Hc _].
      rewrite (leading_letter_check_sanitized c t Hc). unfold assert.
      destruct (is_letter c); split; discriminate. }
  split; [|split; [|split]].
  - rewrite K. unfold sanitized_base. apply re_sub_ident_nil.
  - rewrite splitext_root_nil. apply basename_nil.
  - intros tnp w. rewrite table_name_of_file_run. simpl fst. rewrite <- K.
    destruct (leading_letter_check (sanitized_base file)) as [[]|e];
      [split; discriminate | split; intros H; injection H as ->; reflexivity].
  - reflexivity.
Qed.

End OneFile.

(** ** The submission loop *)

Lemma skipn_app_exact {A : Type} (a b : list A) : skipn (length a) (a ++ b) = b.
Proof. induction a; simpl; auto. Qed.

(** The iteration that raises: nothing is submitted after it. *)
Ltac stopped_here :=
  cbn;
  split; [now rewrite app_nil_r|];
  split; [now rewrite <- app_assoc|];
  do 5 (split; [reflexivity|]);
  split; [intros ? []|];
  split; [discriminate|];
  intros _; eexists; reflexivity.

Section Submission.
Context {U : Unicode}.
Variables (dataset_name table_name_prefix : str).
Variable all_tables_in_dataset : list str.

Let tid := table_id table_name_prefix.
Let passes (w : world) :=
  reached (w_fault w) dataset_name table_name_prefix all_tables_in_dataset.

(** What [for file in files] leaves behind, from world [w] to the world
    of its result [r]. *)
Definition submit_post (files : list str) (jobs : list job) (w : world)
    (r : outcome (list job) * world) : Prop :=
  exists (newjobs : list job) (newlog : list (level * message)),
    w_submitted (snd r) = w_submitted w ++ newjobs
    /\ w_log (snd r) = w_log w ++ newlog
    /\ map (fun j => (source_uri j, dest_table j)) newjobs
       = map (fun f => (f, tid f))
           (to_load table_name_prefix all_tables_in_dataset (passes w files))
    /\ map job_id newjobs = seq (w_next_job w) (length newjobs)
    /\ w_fault (snd r) = w_fault w
    /\ w_done_at (snd r) = w_done_at w
    /\ w_clock (snd r) = w_clock w
    /\ (forall f, In f (passes w files) -> In (tid f) all_tables_in_dataset ->
          In (INFO, AlreadyExists (tid f)) newlog)
    /\ (passes w files = files -> fst r = Return (jobs ++ newjobs))
    /\ (passes w files <> files -> exists e, fst r = Raise e).

Lemma reached_cons (fault : event -> option exn) (file : str)
    (files : list str) :
  reached fault dataset_name table_name_prefix all_tables_in_dataset
    (file :: files)
  = if file_passes fault dataset_name table_name_prefix
         all_tables_in_dataset file
    then file :: reached fault dataset_name table_name_prefix
                   all_tables_in_dataset files
    else [].
Proof. reflexivity. Qed.

Lemma submit_jobs_spec (files : list str) :
  forall (jobs : list job) (w : world),
    submit_post files jobs w
      (submit_jobs dataset_name table_name_prefix all_tables_in_dataset
         files jobs w).
Proof.
  induction files as [|file files IH]; intros jobs w.
  - exists [], []. cbn. rewrite !app_nil_r.
    repeat split; try reflexivity; try tauto.
  - cbn [submit_jobs]. unfold bind at 1. rewrite process_file_run.
    unfold submit_post, passes. rewrite reached_cons.
    fold (table_id table_name_prefix file). fold tid.
    destruct (leading_letter_check (sanitized_base file)) as [[]|e] eqn:Hchk.
    2:{ assert (Hp : file_passes (w_fault w) dataset_name table_name_prefix
                       all_tables_in_dataset file = false)
          by (unfold file_passes; now rewrite Hchk).
        rewrite Hp.
        exists [], [(INFO, ProcessingFile file);
                    (INFO, TableName (sanitized_base file))].
        stopped_here. }
    destruct (str_in (tid file) all_tables_in_dataset) eqn:Hin.
    + assert (Hp : file_passes (w_fault w) dataset_name table_name_prefix
                     all_tables_in_dataset file = true)
        by (unfold file_passes; fold tid; now rewrite Hchk, Hin).
      rewrite Hp.
      set (w2 := log INFO (AlreadyExists (tid file)) _).
      destruct (IH jobs w2)
        as (nj & nl & Hs & Hl & Hm & Hid & Hf & Hd & Hc & Hskip & Hok & Hko).
      unfold passes in *. change (w_fault w2) with (w_fault w) in *.
      exists nj, ([(INFO, ProcessingFile file);
                   (INFO, TableName (sanitized_base file));
                   (INFO, AlreadyExists (tid file))] ++ nl).
      split; [exact Hs|].
      split; [rewrite Hl; cbn; now rewrite <- !app_assoc|].
      split; [rewrite Hm; unfold to_load; cbn [filter]; fold tid;
              now rewrite Hin|].
      split; [exact Hid|]. split; [exact Hf|]. split; [exact Hd|].
      split; [exact Hc|].
      split; [|split].
      * intros f [<- | Hf'] Hsnap.
        -- cbn. auto.
        -- apply in_or_app. right. now apply Hskip.
      * intros E. injection E as E. now apply Hok.
      * intros E. apply Hko. congruence.
    + destruct (w_fault w (LoadTableFromUri file dataset_name (tid file)))
        as [x|] eqn:Hfault.
      * assert (Hp : file_passes (w_fault w) dataset_name table_name_prefix
                       all_tables_in_dataset file = false)
          by (unfold file_passes; fold tid; now rewrite Hchk, Hin, Hfault).
        rewrite Hp.
        exists [], [(INFO, ProcessingFile file);
                    (INFO, TableName (sanitized_base file))].
        stopped_here.
      * assert (Hp : file_passes (w_fault w) dataset_name table_name_prefix
                       all_tables_in_dataset file = true)
          by (unfold file_passes; fold tid; now rewrite Hchk, Hin, Hfault).
        rewrite Hp.
        set (j := new_job w file dataset_name (tid file)).
        set (w3 := log INFO _ _).
        destruct (IH (jobs ++ [j]) w3)
          as (nj & nl & Hs & Hl & Hm & Hid & Hf & Hd & Hc & Hskip & Hok & Hko).
        unfold passes in *. change (w_fault w3) with (w_fault w) in *.
        exists (j :: nj),
          ([(INFO, ProcessingFile file);
            (INFO, TableName (sanitized_base file));
            (INFO, StartedLoadJob file dataset_name (tid file))] ++ nl).
        split; [rewrite Hs; cbn; now rewrite <- app_assoc|].
        split; [rewrite Hl; cbn; now rewrite <- !app_assoc|].
        split; [cbn [map]; rewrite Hm; unfold to_load; cbn [filter];
                fold tid; rewrite Hin; reflexivity|].
        split; [cbn [map length seq]; now rewrite Hid|].
        split; [exact Hf|]. split; [exact Hd|]. split; [exact Hc|].
        split; [|split].
        -- intros f [<- | Hf'] Hsnap.
           ++ apply str_in_In in Hsnap. congruence.
           ++ apply in_or_app. right. now apply Hskip.
        -- intros E. injection E as E. rewrite (Hok E).
           now rewrite <- app_assoc.
        -- intros E. apply Hko. congruence.
Qed.

End Submission.

Lemma take_while_incl {A : Type} (f : A -> bool) (l : list A) (x : A) :
  In x (take_while f l) -> In x l.
Proof.
  induction l as [|y l IH]; simpl; [tauto|].
  destruct (f y); simpl; [intros [E | H]; auto | tauto].
Qed.

Lemma NoDup_map_filter {A B : Type} (g : A -> B) (p : A -> bool)
    (l : list A) :
  NoDup (map g l) -> NoDup (map g (filter p l)).
Proof.
  induction l as [|x l IH]; simpl; [auto|].
  intros H. apply NoDup_cons_iff in H. destruct H as [Hx Hl].
  destruct (p x); simpl; [|auto].
  constructor; [|auto].
  intros Hin. apply Hx. apply in_map_iff in Hin.
  destruct Hin as (y & E & Hy). apply filter_In in Hy.
  apply in_map_iff. exists y. tauto.
Qed.

Lemma NoDup_map_take_while {A B : Type} (g : A -> B) (p : A -> bool)
    (l : list A) :
  NoDup (map g l) -> NoDup (map g (take_while p l)).
Proof.
  induction l as [|x l IH]; simpl; [auto|].
  intros H. apply NoDup_cons_iff in H. destruct H as [Hx Hl].
  destruct (p x); simpl; [|constructor].
  constructor; [|auto].
  intros Hin. apply Hx. apply in_map_iff in Hin.
  destruct Hin as (y & E & Hy). apply take_while_incl in Hy.
  apply in_map_iff. exists y. tauto.
Qed.

Section Laws.
Context {U : Unicode}.

Lemma submitted_by_loop (dataset_name table_name_prefix : str)
    (all_tables_in_dataset files : list str) (jobs : list job) (w : world) :
  let r := submit_jobs dataset_name table_name_prefix all_tables_in_dataset
             files jobs w in
  map (fun j => (source_uri j, dest_table j)) (submitted_since w (snd r))
  = map (fun f => (f, table_id table_name_prefix f))
      (to_load table_name_prefix all_tables_in_dataset
         (reached (w_fault w) dataset_name table_name_prefix
            all_tables_in_dataset files))
  /\ map job_id (submitted_since w (snd r))
     = seq (w_next_job w) (length (submitted_since w (snd r))).
Proof.
  intros r.
  destruct (submit_jobs_spec dataset_name table_name_prefix
              all_tables_in_dataset files jobs w)
    as (nj & nl & Hs & _ & Hm & Hid & _).
  fold r in Hs. unfold submitted_since. rewrite Hs, skipn_app_exact. auto.
Qed.

Lemma job_of_loop (dataset_name table_name_prefix : str)
    (all_tables_in_dataset files : list str) (jobs : list job) (w : world)
    (j : job) :
  In j (submitted_since w
          (snd (submit_jobs dataset_name table_name_prefix
                  all_tables_in_dataset files jobs w))) ->
  exists f, In f files
            /\ source_uri j = f
            /\ dest_table j = table_id table_name_prefix f
            /\ ~ In (table_id table_name_prefix f) all_tables_in_dataset.
Proof.
  intros Hj.
  destruct (submitted_by_loop dataset_name table_name_prefix
              all_tables_in_dataset files jobs w) as [Hm _].
  apply (in_map (fun j => (source_uri j, dest_table j))) in Hj.
  rewrite Hm in Hj. apply in_map_iff in Hj. destruct Hj as (f & E & Hf).
  injection E as E1 E2. unfold to_load in Hf. apply filter_In in Hf.
  destruct Hf as [Hr Hn]. exists f. repeat split; auto.
  - eapply take_while_incl, Hr.
  - intros Hin. apply str_in_In in Hin. rewrite Hin in Hn. discriminate Hn.
Qed.

(** C1, as the code has it.  No load job is submitted for an identifier
    of the snapshot [all_tables_in_dataset]; the jobs submitted are one
    per file the loop gets through whose identifier is not in the snapshot,
    each a handle of its own; and no two of them name the same table when
    the files' identifiers are pairwise distinct. *)
Theorem no_load_for_snapshot_tables (dataset_name table_name_prefix : str)
    (all_tables_in_dataset files : list str) (w : world) :
  let r := submit_jobs dataset_name table_name_prefix all_tables_in_dataset
             files [] w in
  let submitted := submitted_since w (snd r) in
  (forall j, In j submitted -> ~ In (dest_table j) all_tables_in_dataset)
  /\ map (fun j => (source_uri j, dest_table j)) submitted
     = map (fun f => (f, table_id table_name_prefix f))
         (to_load table_name_prefix all_tables_in_dataset
            (reached (w_fault w) dataset_name table_name_prefix
               all_tables_in_dataset files))
  /\ NoDup (map job_id submitted)
  /\ (NoDup (map (table_id table_name_prefix) files) ->
      NoDup (map dest_table submitted)).
Proof.
  intros r submitted.
  destruct (submitted_by_loop dataset_name table_name_prefix
              all_tables_in_dataset files [] w) as [Hm Hid].
  fold r in Hm, Hid. fold submitted in Hm, Hid.
  split; [|split; [exact Hm|split]].
  - intros j Hj.
    destruct (job_of_loop dataset_name table_name_prefix
                all_tables_in_dataset files [] w j Hj)
      as (f & _ & _ & -> & Hn).
    exact Hn.
  - rewrite Hid. apply seq_NoDup.
  - intros Hd.
    assert (E : map dest_table submitted
                = map snd (map (fun j => (source_uri j, dest_table j))
                             submitted))
      by (rewrite map_map; reflexivity).
    rewrite E, Hm, map_map. cbn [snd]. unfold to_load.
    apply NoDup_map_filter. unfold reached.
    now apply NoDup_map_take_while.
Qed.

(** C4.  A file whose identifier is in the snapshot gets no load job, and
    the loop logs the skip line for it when it comes to it; the iteration
    for such a file calls no service and leaves the list of jobs as it
    was. *)
Theorem skip_law (dataset_name table_name_prefix : str)
    (all_tables_in_dataset files : list str) (file : str) (w : world)
    (Hsnapshot : In (table_id table_name_prefix file) all_tables_in_dataset) :
  let table_name := table_id table_name_prefix file in
  let r := submit_jobs dataset_name table_name_prefix all_tables_in_dataset
             files [] w in
  (forall j, In j (submitted_since w (snd r)) ->
     source_uri j <> file /\ dest_table j <> table_name)
  /\ (In file (reached (w_fault w) dataset_name table_name_prefix
                 all_tables_in_dataset files) ->
      In (INFO, AlreadyExists table_name) (logged_since w (snd r)))
  /\ (forall jobs', fst r = Return jobs' -> In file files ->
      In (INFO, AlreadyExists table_name) (logged_since w (snd r)))
  /\ (leading_letter_check (sanitized_base file) = Return tt ->
      forall (jobs : list job) (w0 : world),
        process_file dataset_name table_name_prefix all_tables_in_dataset
          jobs file w0
        = (Return jobs,
           log INFO (AlreadyExists table_name)
             (log INFO (TableName (sanitized_base file))
                (log INFO (ProcessingFile file) w0)))).
Proof.
  intros table_name r.
  destruct (submit_jobs_spec dataset_name table_name_prefix
              all_tables_in_dataset files [] w)
    as (nj & nl & Hs & Hl & _ & _ & _ & _ & _ & Hskip & Hok & Hko).
  fold r in Hs, Hl, Hok, Hko.
  assert (Hlog : logged_since w (snd r) = nl)
    by (unfold logged_since; rewrite Hl; apply skipn_app_exact).
  split; [|split; [|split]].
  - intros j Hj.
    destruct (job_of_loop dataset_name table_name_prefix
                all_tables_in_dataset files [] w j Hj)
      as (f & _ & Hsrc & Hdst & Hn).
    split; intros E; apply Hn.
    + rewrite <- Hsrc, E. exact Hsnapshot.
    + rewrite <- Hdst, E. exact Hsnapshot.
  - intros Hr. rewrite Hlog. now apply Hskip.
  - intros jobs' Hret Hin. rewrite Hlog. apply Hskip; [|exact Hsnapshot].
    destruct (list_eq_dec (list_eq_dec N.eq_dec)
                (reached (w_fault w) dataset_name table_name_prefix
                   all_tables_in_dataset files) files) as [E | E].
    + now rewrite E.
    + destruct (Hko E) as [e He]. rewrite He in Hret. discriminate Hret.
  - intros Hchk jobs w0. rewrite process_file_run. rewrite Hchk.
    fold table_name. apply str_in_In in Hsnapshot. fold table_name in Hsnapshot.
    now rewrite Hsnapshot.
Qed.

End Laws.

(** ** The dataset *)

Lemma request_run (e : event) (w : world) :
  request e w
  = (match w_fault w e with Some x => Raise x | None => Return tt end,
     emit e w).
Proof. unfold request. destruct (w_fault w e); reflexivity. Qed.

Lemma get_dataset_run (dataset_name : str) (w : world) :
  get_dataset dataset_name w
  = (match w_fault w (GetDataset dataset_name) with
     | Some x => Raise x
     | None =>
         match assoc dataset_name (w_datasets w) with
         | Some _ => Return dataset_name
         | None => Raise NotFound
         end
     end,
     emit (GetDataset dataset_name) w).
Proof.
  unfold get_dataset, bind. rewrite request_run.
  destruct (w_fault w _); [reflexivity|].
  cbn. destruct (assoc dataset_name (w_datasets w)); reflexivity.
Qed.

Lemma create_dataset_run (dataset_name : str) (w : world) :
  create_dataset dataset_name w
  = match w_fault w (CreateDataset dataset_name) with
    | Some x => (Raise x, emit (CreateDataset dataset_name) w)
    | None =>
        match assoc dataset_name (w_datasets w) with
        | Some _ =>
            (Raise (ApiError Conflict), emit (CreateDataset dataset_name) w)
        | None =>
            (Return dataset_name,
             set_datasets (emit (CreateDataset dataset_name) w)
               (w_datasets w ++ [(dataset_name, [])]))
        end
    end.
Proof.
  unfold create_dataset, bind. rewrite request_run.
  destruct (w_fault w _); [reflexivity|].
  cbn. destruct (assoc dataset_name (w_datasets w)); reflexivity.
Qed.

Lemma create_dataset_trace (dataset_name : str) (w : world) :
  w_trace (snd (create_dataset dataset_name w))
  = w_trace w ++ [CreateDataset dataset_name].
Proof.
  rewrite create_dataset_run. destruct (w_fault w _); [reflexivity|].
  destruct (assoc dataset_name (w_datasets w)); reflexivity.
Qed.

(** C7.  The fetch of the dataset is tried once.  Its not-found failure,
    and no other, is answered by creating the dataset under its identifier
    with no other setting; every other failure of the fetch goes to the
    caller as it is, and so does a failure of the creation. *)
Theorem dataset_get_or_create (dataset_name : str) (w : world) :
  let fetched := get_dataset dataset_name w in
  let r := ensure_dataset dataset_name w in
  r = match fst fetched with
      | Return dataset =>
          (Return dataset, log INFO (GotDataset dataset) (snd fetched))
      | Raise NotFound => create_dataset dataset_name (snd fetched)
      | Raise e => (Raise e, snd fetched)
      end
  /\ trace_since w (snd fetched) = [GetDataset dataset_name]
  /\ (In (CreateDataset dataset_name) (trace_since w (snd r))
      <-> fst fetched = Raise NotFound)
  /\ (forall e, fst fetched = Raise e -> e <> NotFound ->
      r = (Raise e, snd fetched)
      /\ trace_since w (snd r) = [GetDataset dataset_name]
      /\ w_datasets (snd r) = w_datasets w)
  /\ (fst r = Return dataset_name
      \/ (exists e, fst r = Raise e /\ fst fetched = Raise e /\ e <> NotFound)
      \/ (exists e, fst r = Raise e /\ fst fetched = Raise NotFound
                    /\ fst (create_dataset dataset_name (snd fetched))
                       = Raise e)).
Proof.
  intros fetched r.
  assert (Hr : r = match fst fetched with
                   | Return dataset =>
                       (Return dataset,
                        log INFO (GotDataset dataset) (snd fetched))
                   | Raise NotFound => create_dataset dataset_name (snd fetched)
                   | Raise e => (Raise e, snd fetched)
                   end).
  { unfold r, ensure_dataset, try_except_NotFound, bind. fold fetched.
    destruct fetched as [[d | []] w1]; reflexivity. }
  assert (Ht : w_trace (snd fetched) = w_trace w ++ [GetDataset dataset_name])
    by (unfold fetched; rewrite get_dataset_run; reflexivity).
  assert (Hd : w_datasets (snd fetched) = w_datasets w)
    by (unfold fetched; rewrite get_dataset_run; reflexivity).
  assert (Hf : forall d, fst fetched = Return d -> d = dataset_name).
  { unfold fetched. rewrite get_dataset_run. cbn [fst].
    destruct (w_fault w _); [discriminate|].
    destruct (assoc dataset_name (w_datasets w)); [|discriminate].
    intros d E. now injection E. }
  split; [exact Hr|].
  split; [unfold trace_since; rewrite Ht; apply skipn_app_exact|].
  split; [|split].
  - rewrite Hr. unfold trace_since.
    destruct (fst fetched) as [d | e] eqn:E.
    + cbn. rewrite Ht, skipn_app_exact. cbn.
      split; [intros [H | []]; discriminate H | discriminate].
    + destruct e; cbn [snd];
        try (rewrite Ht, skipn_app_exact; cbn;
             split; [intros [H | []]; discriminate H | discriminate]).
      rewrite create_dataset_trace, Ht, <- app_assoc, skipn_app_exact.
      cbn. tauto.
  - intros e E Hne. rewrite Hr, E.
    assert (K : match e with
                | NotFound => create_dataset dataset_name (snd fetched)
                | _ => (Raise e, snd fetched)
                end = (@Raise str e, snd fetched))
      by (destruct e; [congruence | reflexivity ..]).
    rewrite K. cbn [snd]. unfold trace_since.
    rewrite Ht, skipn_app_exact. auto.
  - rewrite Hr. destruct (fst fetched) as [d | e] eqn:E.
    + left. cbn. now rewrite (Hf d eq_refl).
    + destruct e.
      * destruct (fst (create_dataset dataset_name (snd fetched)))
          as [d | e] eqn:C.
        -- left. revert C. rewrite create_dataset_run.
           destruct (w_fault _ _); [discriminate|].
           destruct (assoc _ _); [discriminate|]. cbn. auto.
        -- right. right. exists e. auto.
      * right. left. eexists. split; [reflexivity|]. split; congruence.
      * right. left. eexists. split; [reflexivity|]. split; congruence.
      * right. left. eexists. split; [reflexivity|]. split; congruence.
      * right. left. eexists. split; [reflexivity|]. split; congruence.
Qed.

(** ** The polling loop *)

Lemma remove_job_length_le (j : job) (jobs : list job) :
  length (remove_job j jobs) <= length jobs.
Proof.
  induction jobs as [|x jobs IH]; simpl; [lia|].
  destruct (Nat.eqb (job_id x) (job_id j)); simpl; lia.
Qed.

Lemma remove_job_length (j : job) (jobs : list job) :
  In (job_id j) (map job_id jobs) ->
  S (length (remove_job j jobs)) = length jobs.
Proof.
  induction jobs as [|x jobs IH]; simpl; [tauto|].
  destruct (Nat.eqb (job_id x) (job_id j)) eqn:E; [reflexivity|].
  apply Nat.eqb_neq in E. intros [H | H]; [contradiction|].
  simpl. now rewrite IH.
Qed.

Lemma remove_job_incl (j x : job) (jobs : list job) :
  In x (remove_job j jobs) -> In x jobs.
Proof.
  induction jobs as [|y jobs IH]; simpl; [tauto|].
  destruct (Nat.eqb (job_id y) (job_id j)); simpl; tauto.
Qed.

Lemma remove_job_other (j x : job) (jobs : list job) :
  In x jobs -> job_id x <> job_id j -> In x (remove_job j jobs).
Proof.
  induction jobs as [|y jobs IH]; simpl; [tauto|].
  intros [-> | H] Hne.
  - destruct (Nat.eqb (job_id x) (job_id j)) eqn:E; [|now left].
    apply Nat.eqb_eq in E. contradiction.
  - destruct (Nat.eqb (job_id y) (job_id j)); [exact H | right; auto].
Qed.

Lemma remove_job_or (j x : job) (jobs : list job) :
  In x jobs -> In x (remove_job j jobs) \/ job_id x = job_id j.
Proof.
  intros H. destruct (Nat.eq_dec (job_id x) (job_id j)) as [E | E];
    [now right | left; now apply remove_job_other].
Qed.

Lemma remove_job_NoDup (j : job) (jobs : list job) :
  NoDup (map job_id jobs) ->
  NoDup (map job_id (remove_job j jobs))
  /\ ~ In (job_id j) (map job_id (remove_job j jobs)).
Proof.
  induction jobs as [|y jobs IH]; simpl; [intros _; split; [constructor | tauto]|].
  intros H. apply NoDup_cons_iff in H. destruct H as [Hy Hn].
  destruct (Nat.eqb (job_id y) (job_id j)) eqn:E.
  - apply Nat.eqb_eq in E. rewrite <- E. auto.
  - apply Nat.eqb_neq in E. destruct (IH Hn) as [IH1 IH2]. simpl. split.
    + constructor; [|exact IH1]. intros Hin. apply Hy.
      apply in_map_iff in Hin. destruct Hin as (x & Ex & Hx).
      apply in_map_iff. exists x. split; [exact Ex|].
      eapply remove_job_incl, Hx.
    + intros [H | H]; [contradiction | auto].
Qed.

Ltac simpl_world :=
  cbn [w_fault w_datasets w_buckets w_submitted w_next_job w_clock w_log
       w_trace w_done_at w_error_result emit set_trace log set_log
       set_datasets set_clock add_job fst snd].

(** The three ways of an iteration of the scan: the job is not done; it is
    done and loaded; it is done and failed, and its result raises. *)
Lemma poll_job_cases (j : job) (jobs : list job) (w : world) :
  let id := job_id j in
  let r := poll_job j jobs w in
  w_clock (snd r) = S (w_clock w)
  /\ w_done_at (snd r) = w_done_at w
  /\ w_error_result (snd r) = w_error_result w
  /\ ((job_is_done w id = false
       /\ fst r = Return jobs
       /\ w_trace (snd r) = w_trace w ++ [JobDone id false]
       /\ w_log (snd r) = w_log w)
      \/ (job_is_done w id = true
          /\ w_error_result w id = None
          /\ fst r = Return (remove_job j jobs)
          /\ w_trace (snd r) = w_trace w ++ [JobDone id true; JobResult id]
          /\ w_log (snd r) = w_log w ++ [completion_line j])
      \/ (exists payload,
            job_is_done w id = true
            /\ w_error_result w id = Some payload
            /\ fst r = Raise (JobError payload)
            /\ w_trace (snd r) = w_trace w ++ [JobDone id true; JobResult id]
            /\ w_log (snd r) = w_log w)).
Proof.
  unfold poll_job, job_done. cbn zeta.
  destruct (job_is_done w (job_id j)) eqn:D; cbn [negb].
  - unfold bind, job_result. simpl_world.
    destruct (w_error_result w (job_id j)) as [payload|] eqn:E.
    + simpl_world. rewrite <- app_assoc.
      repeat (split; [reflexivity|]). right. right. exists payload. auto.
    + simpl_world. rewrite E. unfold logger_info, ret. simpl_world.
      rewrite <- app_assoc.
      repeat (split; [reflexivity|]). right. left. auto.
  - simpl_world. repeat (split; [reflexivity|]). left. auto.
Qed.

Lemma poll_job_return (j : job) (jobs jobs1 : list job) (w w1 : world) :
  poll_job j jobs w = (Return jobs1, w1) ->
  w_clock w1 = S (w_clock w)
  /\ w_done_at w1 = w_done_at w
  /\ w_error_result w1 = w_error_result w
  /\ ((job_is_done w (job_id j) = false /\ jobs1 = jobs
       /\ w_trace w1 = w_trace w ++ [JobDone (job_id j) false]
       /\ w_log w1 = w_log w)
      \/ (job_is_done w (job_id j) = true
          /\ w_error_result w (job_id j) = None
          /\ jobs1 = remove_job j jobs
          /\ w_trace w1
             = w_trace w ++ [JobDone (job_id j) true; JobResult (job_id j)]
          /\ w_log w1 = w_log w ++ [completion_line j])).
Proof.
  intros P. destruct (poll_job_cases j jobs w) as (C1 & C2 & C3 & C).
  rewrite P in C1, C2, C3, C. cbn [fst snd] in *.
  repeat (split; [assumption|]).
  destruct C as [(D & E & T & L) | [(D & N & E & T & L) | (p & _ & _ & E & _)]].
  - left. injection E as <-. auto.
  - right. injection E as <-. auto.
  - discriminate E.
Qed.

Lemma poll_job_raise (j : job) (jobs : list job) (w w1 : world) (e : exn) :
  poll_job j jobs w = (Raise e, w1) ->
  exists payload,
    e = JobError payload
    /\ job_is_done w (job_id j) = true
    /\ w_error_result w (job_id j) = Some payload
    /\ w_clock w1 = S (w_clock w)
    /\ w_done_at w1 = w_done_at w
    /\ w_error_result w1 = w_error_result w
    /\ w_trace w1
       = w_trace w ++ [JobDone (job_id j) true; JobResult (job_id j)]
    /\ w_log w1 = w_log w.
Proof.
  intros P. destruct (poll_job_cases j jobs w) as (C1 & C2 & C3 & C).
  rewrite P in C1, C2, C3, C. cbn [fst snd] in *.
  destruct C as [(_ & E & _) | [(_ & _ & E & _) | (p & D & N & E & T & L)]];
    try discriminate E.
  exists p. injection E as ->. auto 10.
Qed.

Lemma for_jobs_iterates (fuel : nat) :
  forall (i : nat) (jobs : list job) (w : world),
    length jobs - i <= fuel ->
    exists o w',
      for_jobs fuel i jobs w = Some (o, w') /\ iterates i jobs w o w'.
Proof.
  induction fuel as [|fuel IH]; intros i jobs w Hfuel.
  - assert (E : nth_error jobs i = None) by (apply nth_error_None; lia).
    exists (Return jobs), w. cbn. rewrite E.
    split; [reflexivity | now constructor].
  - cbn [for_jobs]. destruct (nth_error jobs i) as [j|] eqn:E.
    + destruct (poll_job j jobs w) as [[jobs1 | e] w1] eqn:P.
      * assert (L : length jobs1 <= length jobs).
        { destruct (poll_job_return _ _ _ P)
            as (_ & _ & _ & [(_ & -> & _) | (_ & _ & -> & _)]);
            [lia | apply remove_job_length_le]. }
        assert (Hi : i < length jobs) by (apply nth_error_Some; congruence).
        destruct (IH (S i) jobs1 w1) as (o & w' & R & I); [lia|].
        exists o, w'. split; [exact R|]. eapply iterates_next; eauto.
      * exists (Raise e), w1. split; [reflexivity|].
        eapply iterates_raise; eauto.
    + exists (Return jobs), w. split; [reflexivity | now constructor].
Qed.

Lemma nth_error_job_id (jobs : list job) (i : nat) (j : job) :
  nth_error jobs i = Some j -> In (job_id j) (map job_id jobs).
Proof. intros H. apply in_map. eapply nth_error_In, H. Qed.

Lemma job_is_done_later (w w' : world) (id : nat) :
  w_done_at w' = w_done_at w -> w_clock w <= w_clock w' ->
  job_is_done w id = true -> job_is_done w' id = true.
Proof.
  unfold job_is_done. intros -> Hc.
  destruct (w_done_at w id); [|discriminate].
  intros H. apply Nat.leb_le in H. apply Nat.leb_le. lia.
Qed.

(** The scan leaves the fates of the jobs alone and the clock goes on by
    one for every poll.  When it runs to its end it has only removed jobs,
    and a job that never reports done, or that failed, is still in the
    list. *)
Lemma iterates_frame (i : nat) (jobs : list job) (w : world)
    (o : outcome (list job)) (w' : world) :
  iterates i jobs w o w' ->
  w_done_at w' = w_done_at w
  /\ w_error_result w' = w_error_result w
  /\ w_clock w <= w_clock w'
  /\ forall jobs', o = Return jobs' ->
       (forall x, In x jobs' -> In x jobs)
       /\ length jobs' <= length jobs
       /\ (forall x, In x jobs ->
             w_done_at w (job_id x) = None
             \/ w_error_result w (job_id x) <> None ->
             In x jobs').
Proof.
  induction 1 as [i jobs w E | i jobs w j jobs1 w1 o w' E P I IH
                 | i jobs w j e w1 E P].
  - split; [reflexivity|]. split; [reflexivity|]. split; [lia|].
    intros jobs' H. injection H as <-. auto.
  - destruct IH as (Hd & He & Hc & IH).
    destruct (poll_job_return _ _ _ P) as (C1 & C2 & C3 & C).
    split; [congruence|]. split; [congruence|]. split; [lia|].
    intros jobs' Ho. destruct (IH jobs' Ho) as (Hi & Hl & Hk).
    destruct C as [(D & -> & _) | (D & N & -> & _)].
    + split; [exact Hi|]. split; [exact Hl|].
      intros x Hx Hs. apply Hk; [exact Hx|]. now rewrite C2, C3.
    + split; [intros x Hx; eapply remove_job_incl, Hi, Hx|].
      split; [pose proof (remove_job_length_le j jobs); lia|].
      intros x Hx Hs. apply Hk; [|now rewrite C2, C3].
      apply remove_job_other; [exact Hx|]. intros Eid.
      rewrite Eid in Hs. destruct Hs as [Hs | Hs]; [|contradiction].
      unfold job_is_done in D. rewrite Hs in D. discriminate D.
  - destruct (poll_job_raise _ _ _ P) as (p & _ & _ & _ & C1 & C2 & C3 & _).
    split; [exact C2|]. split; [exact C3|]. split; [lia|].
    intros jobs' H. discriminate H.
Qed.

(** What the scan polls, and how the list shrinks. *)
Lemma iterates_trace (i : nat) (jobs : list job) (w : world)
    (o : outcome (list job)) (w' : world) :
  iterates i jobs w o w' ->
  exists evs,
    w_trace w' = w_trace w ++ evs
    /\ polls_ok evs = true
    /\ (forall jobs', o = Return jobs' ->
          length jobs = length jobs' + length (completed evs)
          /\ (forall x, In x jobs ->
                In x jobs' \/ In (JobResult (job_id x)) evs)
          /\ (NoDup (map job_id jobs) ->
              forall id, In id (completed evs) ->
                ~ In id (map job_id jobs')))
    /\ (forall e, o = Raise e ->
          exists j payload,
            In j jobs
            /\ job_is_done w' (job_id j) = true
            /\ w_error_result w (job_id j) = Some payload
            /\ e = JobError payload).
Proof.
  induction 1 as [i jobs w E | i jobs w j jobs1 w1 o w' E P I IH
                 | i jobs w j e w1 E P].
  - exists []. rewrite app_nil_r. split; [reflexivity|].
    split; [reflexivity|]. split; [|discriminate].
    intros jobs' H. injection H as <-. cbn. repeat split; auto.
  - destruct IH as (evs & Ht & Hp & Hret & Hraise).
    destruct (iterates_frame I) as (_ & _ & _ & Hfr).
    destruct (poll_job_return _ _ _ P) as (C1 & C2 & C3 & C).
    destruct C as [(D & -> & T & _) | (D & N & -> & T & _)].
    + exists (JobDone (job_id j) false :: evs).
      split; [rewrite Ht, T, <- app_assoc; reflexivity|].
      split; [exact Hp|]. split.
      * intros jobs' Ho. destruct (Hret jobs' Ho) as (Hl & Hr & Hn).
        split; [exact Hl|].
        split; [intros x Hx; destruct (Hr x Hx); [left | right; right];
                auto|].
        exact Hn.
      * intros e Ho. destruct (Hraise e Ho) as (x & p & Hx & Hd & He & ->).
        exists x, p. rewrite <- C3. auto.
    + exists (JobDone (job_id j) true :: JobResult (job_id j) :: evs).
      split; [rewrite Ht, T, <- app_assoc; reflexivity|].
      split; [cbn; now rewrite Nat.eqb_refl|]. split.
      * intros jobs' Ho. destruct (Hret jobs' Ho) as (Hl & Hr & Hn).
        destruct (Hfr jobs' Ho) as (Hincl & _).
        split; [cbn [completed flat_map app length]; fold (completed evs);
                rewrite <- (remove_job_length j jobs
                              (nth_error_job_id _ _ E)); lia|].
        split.
        -- intros x Hx. destruct (remove_job_or j x jobs Hx) as [H | H].
           ++ destruct (Hr x H); [left | right; right; right]; auto.
           ++ right. right. left. now rewrite H.
        -- intros Hnd id Hid.
           destruct (remove_job_NoDup j jobs Hnd) as [Hnd1 Hj].
           cbn in Hid. destruct Hid as [<- | Hid]; [|now apply Hn].
           intros Hin. apply Hj. apply in_map_iff in Hin.
           destruct Hin as (x & Ex & Hx). apply in_map_iff. exists x.
           split; [exact Ex | now apply Hincl].
      * intros e Ho. destruct (Hraise e Ho) as (x & p & Hx & Hd & He & ->).
        exists x, p. rewrite <- C3.
        split; [eapply remove_job_incl, Hx | auto].
  - destruct (poll_job_raise _ _ _ P) as (p & -> & D & N & C1 & C2 & C3 & T & _).
    exists [JobDone (job_id j) true; JobResult (job_id j)].
    split; [exact T|]. split; [cbn; now rewrite Nat.eqb_refl|].
    split; [discriminate|].
    intros e H. injection H as <-. exists j, p.
    split; [eapply nth_error_In, E|].
    split; [apply (job_is_done_later w w1 (job_id j) C2); [lia | exact D]|].
    auto.
Qed.

Lemma scan_iterates (jobs : list job) (w : world) :
  exists o w', scan jobs w = Some (o, w') /\ iterates 0 jobs w o w'.
Proof. unfold scan. apply for_jobs_iterates. lia. Qed.

(** A scan of a list that is not empty polls its first job: the clock goes
    on, and when that job answers done the scan either raises or leaves a
    shorter list. *)
Lemma iterates_progress (j : job) (jobs : list job) (w : world)
    (o : outcome (list job)) (w' : world) :
  iterates 0 (j :: jobs) w o w' ->
  w_clock w < w_clock w'
  /\ (job_is_done w (job_id j) = true ->
      forall jobs', o = Return jobs' -> length jobs' < length (j :: jobs)).
Proof.
  intros I.
  inversion I as [? ? ? E | ? ? ? j0 jobs1 w1 ? ? E P I1 | ? ? ? j0 e w1 E P];
    subst; [discriminate E | |].
  - cbn in E. injection E as <-.
    destruct (iterates_frame I1) as (_ & _ & Hc & Hfr).
    destruct (poll_job_return _ _ _ P) as (C1 & _ & _ & C).
    split; [lia|]. intros D jobs' Ho.
    destruct (Hfr jobs' Ho) as (_ & Hl & _).
    destruct C as [(D' & _) | (_ & _ & -> & _)]; [congruence|].
    cbn [remove_job] in Hl. rewrite Nat.eqb_refl in Hl. cbn. lia.
  - cbn in E. injection E as <-.
    destruct (poll_job_raise _ _ _ P) as (p & _ & _ & _ & C1 & _).
    split; [lia|]. intros _ jobs' Ho. discriminate Ho.
Qed.

(** A job that failed and reports done is never stepped over for good: a
    scan that still has it ahead either raises or removes some job. *)
Lemma iterates_failing (i : nat) (jobs : list job) (w : world)
    (o : outcome (list job)) (w' : world) :
  iterates i jobs w o w' ->
  forall (k : nat) (f : job),
    i <= k -> nth_error jobs k = Some f ->
    job_is_done w (job_id f) = true ->
    w_error_result w (job_id f) <> None ->
    forall jobs', o = Return jobs' -> length jobs' < length jobs.
Proof.
  induction 1 as [i jobs w E | i jobs w j jobs1 w1 o w' E P I IH
                 | i jobs w j e w1 E P];
    intros k f Hk Ef Df Nf jobs' Ho.
  - apply nth_error_None in E.
    assert (Q : nth_error jobs k = None) by (apply nth_error_None; lia).
    congruence.
  - destruct (poll_job_return _ _ _ P) as (C1 & C2 & C3 & C).
    destruct C as [(D & -> & _) | (D & N & -> & _)].
    + destruct (Nat.eq_dec k i) as [-> | Hne]; [congruence|].
      apply (IH k f); auto; [lia | | now rewrite C3].
      apply (job_is_done_later w w1 (job_id f) C2); [lia | exact Df].
    + destruct (iterates_frame I) as (_ & _ & _ & Hfr).
      destruct (Hfr jobs' Ho) as (_ & Hl & _).
      pose proof (remove_job_length j jobs (nth_error_job_id _ _ E)). lia.
  - discriminate Ho.
Qed.

(** The loop ends once every job of the list reports done. *)
Lemma poll_until_done_enough (T : nat) (fuel : nat) :
  forall (jobs : list job) (w : world),
    (forall j, In j jobs ->
       exists t, w_done_at w (job_id j) = Some t /\ t <= T) ->
    (T - w_clock w) + length jobs < fuel ->
    exists r, poll_until_done fuel jobs w = Some r.
Proof.
  induction fuel as [|fuel IH]; intros jobs w Hdone Hfuel; [lia|].
  cbn [poll_until_done].
  destruct (scan_iterates jobs w) as ([jobs' | e] & w' & -> & I);
    [|now eexists].
  destruct (Nat.eqb (length jobs') 0) eqn:Z; [now eexists|].
  apply Nat.eqb_neq in Z.
  destruct (iterates_frame I) as (Hd & _ & Hc & Hfr).
  destruct (Hfr jobs' eq_refl) as (Hincl & Hl & _).
  apply IH.
  - intros x Hx. rewrite Hd. apply Hdone, Hincl, Hx.
  - destruct jobs as [|j jobs]; [cbn in Hl; lia|].
    destruct (iterates_progress I) as [Hclock Hshrink].
    destruct (Nat.le_gt_cases T (w_clock w)) as [Hlate | Hearly]; [|lia].
    assert (D : job_is_done w (job_id j) = true).
    { destruct (Hdone j (or_introl eq_refl)) as (t & Et & Ht).
      unfold job_is_done. rewrite Et. apply Nat.leb_le. lia. }
    specialize (Hshrink D jobs' eq_refl). lia.
Qed.

(** The loop also ends once a job of the list that failed reports done,
    whatever the other jobs do. *)
Lemma poll_until_done_failing (t : nat) (fuel : nat) :
  forall (jobs : list job) (w : world) (f : job),
    In f jobs -> w_done_at w (job_id f) = Some t ->
    w_error_result w (job_id f) <> None ->
    (t - w_clock w) + length jobs < fuel ->
    exists r, poll_until_done fuel jobs w = Some r.
Proof.
  induction fuel as [|fuel IH]; intros jobs w f Hf Ht Hn Hfuel; [lia|].
  cbn [poll_until_done].
  destruct (scan_iterates jobs w) as ([jobs' | e] & w' & -> & I);
    [|now eexists].
  destruct (Nat.eqb (length jobs') 0) eqn:Z; [now eexists|].
  destruct (iterates_frame I) as (Hd & He & Hc & Hfr).
  destruct (Hfr jobs' eq_refl) as (Hincl & Hl & Hk).
  apply (IH jobs' w' f).
  - apply Hk; [exact Hf | now right].
  - now rewrite Hd.
  - now rewrite He.
  - destruct jobs as [|j jobs]; [contradiction|].
    destruct (iterates_progress I) as [Hclock _].
    destruct (Nat.le_gt_cases t (w_clock w)) as [Hlate | Hearly]; [|lia].
    assert (D : job_is_done w (job_id f) = true)
      by (unfold job_is_done; rewrite Ht; apply Nat.leb_le; lia).
    destruct (In_nth_error _ _ Hf) as [k Ek].
    pose proof (@iterates_failing _ _ _ _ _ I k f (Nat.le_0_l k) Ek D Hn
                  jobs' eq_refl). lia.
Qed.

(** The loop goes on for ever when a job of the list never reports done
    and no job of the list fails. *)
Lemma poll_until_done_never (fuel : nat) :
  forall (jobs : list job) (w : world) (j : job),
    In j jobs -> w_done_at w (job_id j) = None ->
    (forall x, In x jobs -> ~ fails w x) ->
    poll_until_done fuel jobs w = None.
Proof.
  induction fuel as [|fuel IH]; intros jobs w j Hj Hnone Hok; [reflexivity|].
  cbn [poll_until_done].
  destruct (scan_iterates jobs w) as ([jobs' | e] & w' & -> & I).
  - destruct (iterates_frame I) as (Hd & He & _ & Hfr).
    destruct (Hfr jobs' eq_refl) as (Hincl & _ & Hk).
    assert (Hj' : In j jobs') by (apply Hk; [exact Hj | now left]).
    destruct jobs' as [|x jobs']; [contradiction|]. cbn [length Nat.eqb].
    apply (IH _ _ j Hj'); [now rewrite Hd|].
    intros y Hy. unfold fails. rewrite Hd, He. apply Hok, Hincl, Hy.
  - exfalso. destruct (iterates_trace I) as (evs & _ & _ & _ & Hraise).
    destruct (Hraise e eq_refl) as (x & p & Hx & Dx & Ex & _).
    destruct (iterates_frame I) as (Hd & _).
    apply (Hok x Hx). split; [|congruence].
    unfold job_is_done in Dx. rewrite Hd in Dx.
    destruct (w_done_at w (job_id x)); [discriminate | discriminate Dx].
Qed.

(** What the loop has done when it ends: normally, the result of every job
    has been retrieved and none of them failed; with an exception, the
    exception is the error of a job of the list that reported done. *)
Lemma poll_until_done_results (fuel : nat) :
  forall (jobs : list job) (w : world) (o : outcome unit) (w' : world),
    poll_until_done fuel jobs w = Some (o, w') ->
    exists evs,
      w_trace w' = w_trace w ++ evs
      /\ (o = Return tt ->
          forall j, In j jobs ->
            In (JobResult (job_id j)) evs
            /\ w_error_result w (job_id j) = None)
      /\ (forall e, o = Raise e ->
            exists j payload,
              In j jobs
              /\ w_done_at w (job_id j) <> None
              /\ w_error_result w (job_id j) = Some payload
              /\ e = JobError payload).
Proof.
  induction fuel as [|fuel IH]; intros jobs w o w' H; [discriminate H|].
  cbn [poll_until_done] in H.
  destruct (scan_iterates jobs w) as ([jobs1 | e1] & w1 & E & I);
    rewrite E in H.
  - destruct (iterates_trace I) as (evs1 & Ht & _ & Hret & _).
    destruct (Hret jobs1 eq_refl) as (_ & Hr & _).
    destruct (iterates_frame I) as (Hd & He & _ & Hfr).
    destruct (Hfr jobs1 eq_refl) as (Hincl & _ & Hk).
    destruct (Nat.eqb (length jobs1) 0) eqn:Z.
    + injection H as <- <-. exists evs1. split; [exact Ht|].
      apply Nat.eqb_eq in Z. destruct jobs1; [|discriminate Z].
      split; [|discriminate].
      intros _ j Hj. split.
      * destruct (Hr j Hj) as [[] | Hin]. exact Hin.
      * destruct (w_error_result w (job_id j)) eqn:Q; [|reflexivity].
        exfalso. apply (Hk j Hj). right. congruence.
    + destruct (IH _ _ _ _ H) as (evs2 & Ht2 & Hret2 & Hraise2).
      exists (evs1 ++ evs2). split; [now rewrite Ht2, Ht, app_assoc|].
      split.
      * intros Ho j Hj. split.
        -- apply in_or_app. destruct (Hr j Hj) as [Hin | Hin];
             [right; now apply Hret2 | now left].
        -- destruct (w_error_result w (job_id j)) eqn:Q; [|reflexivity].
           exfalso.
           assert (Hj1 : In j jobs1) by (apply Hk; [exact Hj|]; right;
                                         congruence).
           destruct (Hret2 Ho j Hj1) as [_ Q1]. congruence.
      * intros e Ho. destruct (Hraise2 e Ho) as (j & p & Hj & Dj & Ej & ->).
        exists j, p. rewrite <- Hd, <- He. auto.
  - injection H as <- <-.
    destruct (iterates_trace I) as (evs1 & Ht & _ & _ & Hraise).
    destruct (Hraise e1 eq_refl) as (x & p & Hx & Dx & Ex & ->).
    destruct (iterates_frame I) as (Hd & _).
    exists evs1. split; [exact Ht|]. split; [discriminate|].
    intros e Q. injection Q as <-. exists x, p.
    split; [exact Hx|]. split; [|auto].
    unfold job_is_done in Dx. rewrite Hd in Dx.
    destruct (w_done_at w (job_id x)); [discriminate | discriminate Dx].
Qed.

Lemma done_bound (w : world) (jobs : list job) :
  (forall j, In j jobs -> w_done_at w (job_id j) <> None) ->
  exists T, forall j, In j jobs ->
    exists t, w_done_at w (job_id j) = Some t /\ t <= T.
Proof.
  induction jobs as [|x jobs IH]; intros H.
  - exists 0. intros j [].
  - destruct IH as [T HT]; [intros j Hj; apply H; now right|].
    destruct (w_done_at w (job_id x)) as [t|] eqn:E;
      [|exfalso; apply (H x); [now left | exact E]].
    exists (Nat.max t T). intros j [<- | Hj].
    + exists t. split; [exact E | lia].
    + destruct (HT j Hj) as (t' & Et' & Ht'). exists t'. split; [exact Et' | lia].
Qed.

Lemma fails_or_not (w : world) (jobs : list job) :
  (exists j, In j jobs /\ fails w j)
  \/ (forall j, In j jobs -> ~ fails w j).
Proof.
  induction jobs as [|x jobs [(j & Hj & F) | IH]].
  - right. intros j [].
  - left. exists j. split; [now right | exact F].
  - destruct (w_done_at w (job_id x)) eqn:D;
      [destruct (w_error_result w (job_id x)) eqn:E|].
    + left. exists x. split; [now left|]. unfold fails.
      rewrite D, E. split; discriminate.
    + right. intros j [<- | Hj]; [|now apply IH].
      intros [_ F]. now apply F.
    + right. intros j [<- | Hj]; [|now apply IH].
      intros [F _]. now apply F.
Qed.

Lemma done_or_not (w : world) (jobs : list job) :
  (forall j, In j jobs -> w_done_at w (job_id j) <> None)
  \/ (exists j, In j jobs /\ w_done_at w (job_id j) = None).
Proof.
  induction jobs as [|x jobs [IH | (j & Hj & F)]].
  - left. intros j [].
  - destruct (w_done_at w (job_id x)) eqn:D.
    + left. intros j [<- | Hj]; [congruence | now apply IH].
    + right. exists x. split; [now left | exact D].
  - right. exists j. split; [now right | exact F].
Qed.

(** When the loop ends: every job of the list reports done from some tick
    on, or one of them that failed does. *)
Lemma poll_until_done_iff (jobs : list job) (w : world) :
  (exists fuel r, poll_until_done fuel jobs w = Some r)
  <-> ((forall j, In j jobs -> w_done_at w (job_id j) <> None)
       \/ (exists j, In j jobs /\ fails w j)).
Proof.
  split.
  - intros (fuel & r & H).
    destruct (fails_or_not w jobs) as [F | F]; [now right|].
    destruct (done_or_not w jobs) as [D | (j & Hj & D)]; [now left|].
    rewrite (@poll_until_done_never fuel jobs w j Hj D F) in H.
    discriminate H.
  - intros [H | (f & Hf & D & E)].
    + destruct (done_bound w jobs H) as [T HT].
      exists (S (T - w_clock w + length jobs)).
      apply (poll_until_done_enough (T := T)); [exact HT | lia].
    + destruct (w_done_at w (job_id f)) as [t|] eqn:Q; [|congruence].
      exists (S (t - w_clock w + length jobs)).
      apply (@poll_until_done_failing t _ jobs w f); auto.
Qed.

(** More fuel does not change what the loop does. *)
Lemma poll_until_done_more (fuel : nat) :
  forall (jobs : list job) (w : world) (r : outcome unit * world),
    poll_until_done fuel jobs w = Some r ->
    poll_until_done (S fuel) jobs w = Some r.
Proof.
  induction fuel as [|fuel IH]; intros jobs w r H; [discriminate H|].
  cbn [poll_until_done] in H. cbn [poll_until_done].
  destruct (scan jobs w) as [[[jobs' | e] w1]|]; [| exact H | discriminate H].
  destruct (Nat.eqb (length jobs') 0); [exact H|].
  apply IH in H. exact H.
Qed.

Lemma poll_until_done_le (fuel fuel' : nat) (jobs : list job) (w : world)
    (r : outcome unit * world) :
  fuel <= fuel' ->
  poll_until_done fuel jobs w = Some r ->
  poll_until_done fuel' jobs w = Some r.
Proof.
  induction 1 as [|fuel' _ IH]; [auto|].
  intros H. now apply poll_until_done_more, IH.
Qed.

Lemma poll_until_done_fun (fuel fuel' : nat) (jobs : list job) (w : world)
    (r r' : outcome unit * world) :
  poll_until_done fuel jobs w = Some r ->
  poll_until_done fuel' jobs w = Some r' ->
  r = r'.
Proof.
  intros H H'.
  apply (@poll_until_done_le _ (Nat.max fuel fuel') _ _ _
           (Nat.le_max_l _ _)) in H.
  apply (@poll_until_done_le _ (Nat.max fuel fuel') _ _ _
           (Nat.le_max_r _ _)) in H'.
  congruence.
Qed.

(** ** What the polling loop logs *)




(** Without any assumption on the handles: every line the loop logs is the
    completion line of a job of the list. *)
Lemma iterates_lines (i : nat) (jobs : list job) (w : world)
    (o : outcome (list job)) (w' : world) :
  iterates i jobs w o w' ->
  exists ls,
    w_log w' = w_log w ++ ls
    /\ forall line, In line ls ->
         exists j, In j jobs /\ line = completion_line j.
Proof.
  induction 1 as [i jobs w E | i jobs w j jobs1 w1 o w' E P I IH
                 | i jobs w j e w1 E P].
  - exists []. rewrite app_nil_r. split; [reflexivity | intros ? []].
  - destruct IH as (ls & -> & Hls).
    destruct (poll_job_return _ _ _ P)
      as (_ & _ & _ & [(_ & -> & _ & ->) | (_ & _ & -> & _ & ->)]).
    + now exists ls.
    + exists (completion_line j :: ls). rewrite <- app_assoc.
      split; [reflexivity|]. intros line [<- | Hl].
      * exists j. split; [eapply nth_error_In, E | reflexivity].
      * destruct (Hls line Hl) as (x & Hx & ->). exists x.
        split; [eapply remove_job_incl, Hx | reflexivity].
  - destruct (poll_job_raise _ _ _ P) as (p & _ & _ & _ & _ & _ & _ & _ & ->).
    exists []. rewrite app_nil_r. split; [reflexivity | intros ? []].
Qed.

Lemma poll_until_done_lines (fuel : nat) :
  forall (jobs : list job) (w : world) (o : outcome unit) (w' : world),
    poll_until_done fuel jobs w = Some (o, w') ->
    exists ls,
      w_log w' = w_log w ++ ls
      /\ forall line, In line ls ->
           exists j, In j jobs /\ line = completion_line j.
Proof.
  induction fuel as [|fuel IH]; intros jobs w o w' H; [discriminate H|].
  cbn [poll_until_done] in H.
  destruct (scan_iterates jobs w) as (o1 & w1 & E & I). rewrite E in H.
  destruct (iterates_lines I) as (ls1 & L1 & Hls1).
  destruct o1 as [jobs1 | e1].
  - destruct (iterates_frame I) as (_ & _ & _ & Hfr).
    destruct (Hfr jobs1 eq_refl) as (Hincl & _).
    destruct (Nat.eqb (length jobs1) 0).
    + injection H as <- <-. now exists ls1.
    + destruct (IH _ _ _ _ H) as (ls2 & L2 & Hls2).
      exists (ls1 ++ ls2). split; [now rewrite L2, L1, app_assoc|].
      intros line Hl. apply in_app_or in Hl. destruct Hl as [Hl | Hl];
        [now apply Hls1|].
      destruct (Hls2 line Hl) as (x & Hx & ->). exists x. auto.
  - injection H as <- <-. now exists ls1.
Qed.

(** C2.  A job that ended with an error ends the polling loop with the
    exception its result raises.  Polled once it reports done, such a job
    makes [poll_job] raise at the call of [result()]: no list comes back,
    so its handle is not removed, and nothing is logged for it.  The loop
    then ends with that exception whatever the other jobs of the list do,
    also when some of them never report done; every line it has logged by
    then is the completion line of a job that loaded, never an error
    line. *)
Theorem failed_job_ends_polling (jobs : list job) (w : world) (f : job)
    (Hin : In f jobs) (Hfails : fails w f) :
  (job_is_done w (job_id f) = true ->
   exists payload w1,
     poll_job f jobs w = (Raise (JobError payload), w1)
     /\ w_error_result w (job_id f) = Some payload
     /\ trace_since w w1 = [JobDone (job_id f) true; JobResult (job_id f)]
     /\ logged_since w w1 = [])
  /\ exists fuel e w',
       poll_until_done fuel jobs w = Some (Raise e, w')
       /\ (forall fuel' r,
             poll_until_done fuel' jobs w = Some r -> r = (Raise e, w'))
       /\ (exists j payload,
             In j jobs
             /\ fails w j
             /\ w_error_result w (job_id j) = Some payload
             /\ e = JobError payload)
       /\ (forall j, In j jobs ->
             In (ERROR, ErrorLoading j) (logged_since w w') -> False)
       /\ (forall line, In line (logged_since w w') -> fst line = INFO).
Proof.
  split.
  - intros D. destruct Hfails as [_ E].
    destruct (poll_job_cases f jobs w) as (_ & _ & _ & C).
    destruct (poll_job f jobs w) as [o w1] eqn:P. cbn [fst snd] in C.
    destruct C as [(D' & _) | [(_ & N & _) | (p & _ & N & -> & T & L)]];
      [congruence | congruence |].
    exists p, w1. split; [reflexivity|]. split; [exact N|].
    unfold trace_since, logged_since. rewrite T, L.
    split; [apply skipn_app_exact|].
    rewrite <- (app_nil_r (w_log w)) at 2. apply skipn_app_exact.
  - destruct (proj2 (poll_until_done_iff jobs w)) as (fuel & [o w'] & H);
      [right; now exists f|].
    destruct (@poll_until_done_results fuel jobs w _ _ H)
      as (evs & _ & Hret & Hraise).
    destruct o as [[] | e].
    + exfalso. destruct (Hret eq_refl f Hin) as [_ N].
      destruct Hfails as [_ E]. now apply E.
    + exists fuel, e, w'. split; [exact H|].
      split; [intros fuel' r H'; symmetry;
              eapply poll_until_done_fun; eauto|].
      destruct (Hraise e eq_refl) as (j & p & Hj & Dj & Ej & ->).
      split; [exists j, p; unfold fails; rewrite Ej;
              repeat split; auto; discriminate|].
      assert (Hlines : forall line, In line (logged_since w w') ->
                fst line = INFO).
      { destruct (@poll_until_done_lines fuel jobs w _ _ H) as (ls & L & Hls).
        unfold logged_since. rewrite L, skipn_app_exact.
        intros line Hl. destruct (Hls line Hl) as (x & _ & ->). reflexivity. }
      split; [|exact Hlines].
      intros x _ Hl. specialize (Hlines _ Hl). discriminate Hlines.
Qed.

(** ** The walker *)
















Section WalkerTrace.
Context {U : Unicode}.




End WalkerTrace.




Section Walker.
Context {U : Unicode}.



End Walker.


Lemma get_bucket_run (bucket_name : str) (w : world) :
  get_bucket bucket_name w
  = (match w_fault w (GetBucket bucket_name) with
     | Some x => Raise x
     | None =>
         match assoc bucket_name (w_buckets w) with
         | Some names => Return names
         | None => Raise NotFound
         end
     end,
     emit (GetBucket bucket_name) w).
Proof.
  unfold get_bucket, bind. rewrite request_run.
  destruct (w_fault w _); [reflexivity|].
  cbn. destruct (assoc bucket_name (w_buckets w)); reflexivity.
Qed.

Lemma list_blobs_run (bucket_name prefix : str) (d : option char)
    (w : world) :
  list_blobs bucket_name prefix d w
  = (match w_fault w (ListBlobs bucket_name prefix d) with
     | Some x => Raise x
     | None =>
         match assoc bucket_name (w_buckets w) with
         | Some names => Return (listing names prefix d)
         | None => Raise NotFound
         end
     end,
     emit (ListBlobs bucket_name prefix d) w).
Proof.
  unfold list_blobs, bind. rewrite request_run.
  destruct (w_fault w _); [reflexivity|].
  cbn. destruct (assoc bucket_name (w_buckets w)); reflexivity.
Qed.

Section WalkerLaw.
Context {U : Unicode}.



End WalkerLaw.


(** * The laws at work *)

(** C6 on the identifier [orders_2024]. *)
Lemma sanitizer_idempotent_witness :
  forallb ident_char (py "orders_2024") = true
  /\ re_sub_ident (py "orders_2024") = py "orders_2024".
Proof.
  split; [reflexivity|].
  apply (proj1 (sanitizer_idempotent (py "orders_2024") eq_refl)).
Defined.

(** C1 as stated fails: the two colliding files both get a load job for
    the table [a_b]. *)
Lemma one_table_loaded_twice :
  map dest_table
    (submitted_since (store [] 0)
       (snd (submit_jobs (U := latin1) (py "raw_x") [] [] colliding_files []
               (store [] 0))))
  = [py "a_b"; py "a_b"]
  /\ ~ NoDup
         (map dest_table
            (submitted_since (store [] 0)
               (snd (submit_jobs (U := latin1) (py "raw_x") [] []
                       colliding_files [] (store [] 0))))).
Proof.
  assert (E : map dest_table
                (submitted_since (store [] 0)
                   (snd (submit_jobs (U := latin1) (py "raw_x") [] []
                           colliding_files [] (store [] 0))))
              = [py "a_b"; py "a_b"]) by (vm_compute; reflexivity).
  split; [exact E|]. rewrite E. intros H.
  apply NoDup_cons_iff in H. destruct H as [H _]. apply H. now left.
Qed.

(** C1 as amended, on two files with distinct identifiers. *)
Lemma no_load_for_snapshot_tables_witness :
  NoDup (map (table_id []) orders_files)
  /\ NoDup
       (map dest_table
          (submitted_since (store [] 0)
             (snd (submit_jobs (U := latin1) (py "raw_orders") []
                     orders_snapshot orders_files [] (store [] 0))))).
Proof.
  assert (D : NoDup (map (table_id []) orders_files)).
  { change (NoDup [py "orders_2024"; py "orders_2025"]).
    constructor; [intros [H | []]; discriminate H|].
    constructor; [intros []|constructor]. }
  split; [exact D|].
  exact (proj2 (proj2 (proj2
           (no_load_for_snapshot_tables (U := latin1) (py "raw_orders") []
              orders_snapshot orders_files (store [] 0)))) D).
Defined.

(** C4 on the file of the table [orders_2024]. *)
Lemma skip_law_witness :
  In (table_id [] (py "gs://b/raw/orders/orders_2024.parquet"))
    orders_snapshot
  /\ In (INFO,
         AlreadyExists
           (table_id [] (py "gs://b/raw/orders/orders_2024.parquet")))
       (logged_since (store [] 0)
          (snd (submit_jobs (U := latin1) (py "raw_orders") []
                  orders_snapshot orders_files [] (store [] 0)))).
Proof.
  assert (H : In (table_id [] (py "gs://b/raw/orders/orders_2024.parquet"))
                orders_snapshot) by (vm_compute; left; reflexivity).
  split; [exact H|].
  pose proof (skip_law (U := latin1) (py "raw_orders") [] orders_snapshot
                orders_files (py "gs://b/raw/orders/orders_2024.parquet")
                (store [] 0) H) as K.
  cbv zeta in K. destruct K as (_ & K & _).
  apply K. vm_compute. left. reflexivity.
Defined.

(** C4 as stated fails: the file of the table [orders_2024] is behind a
    file that fails the leading-letter check, so the loop never comes to
    it; and the file [2024.parquet] meets the snapshot table [t_2024]
    with the prefix [t_], but fails the check on its base name.  In both
    runs the identifier is in the snapshot and no skip line is logged. *)
Lemma skip_line_not_reached :
  (In (table_id [] (py "gs://b/raw/orders/orders_2024.parquet"))
     orders_snapshot
   /\ fst (submit_jobs (U := latin1) (py "raw_orders") [] orders_snapshot
             unreached_files [] (store [] 0))
      = Raise (AssertionError "table_name must start with a letter")
   /\ ~ In (INFO,
            AlreadyExists
              (table_id [] (py "gs://b/raw/orders/orders_2024.parquet")))
          (logged_since (store [] 0)
             (snd (submit_jobs (U := latin1) (py "raw_orders") []
                     orders_snapshot unreached_files [] (store [] 0)))))
  /\ (In (table_id (py "t_") digit_file) [py "t_2024"]
      /\ fst (submit_jobs (U := latin1) (py "raw_orders") (py "t_")
                [py "t_2024"] [digit_file] [] (store [] 0))
         = Raise (AssertionError "table_name must start with a letter")
      /\ ~ In (INFO, AlreadyExists (table_id (py "t_") digit_file))
             (logged_since (store [] 0)
                (snd (submit_jobs (U := latin1) (py "raw_orders") (py "t_")
                        [py "t_2024"] [digit_file] [] (store [] 0))))).
Proof.
  split; (split; [vm_compute; left; reflexivity|]);
    (split; [vm_compute; reflexivity|]);
    vm_compute; intros H;
    repeat (destruct H as [H | H]; [discriminate H|]); exact H.
Qed.

(** C2 on three jobs of which the first failed and the others never
    report done: the first poll raises the error of the failed job, with
    nothing logged, and that is how the loop ends. *)
Lemma failed_job_ends_polling_witness :
  In first_job three_jobs
  /\ fails failed_and_stuck first_job
  /\ w_done_at failed_and_stuck 1 = None
  /\ outcome_of (poll_until_done 1 three_jobs failed_and_stuck)
     = Some (Raise (JobError (py "bad file")))
  /\ log_of (poll_until_done 1 three_jobs failed_and_stuck) = []
  /\ exists fuel e w',
       poll_until_done fuel three_jobs failed_and_stuck = Some (Raise e, w').
Proof.
  assert (Hin : In first_job three_jobs) by (left; reflexivity).
  assert (Hfails : fails failed_and_stuck first_job)
    by (split; vm_compute; discriminate).
  split; [exact Hin|]. split; [exact Hfails|].
  split; [reflexivity|]. split; [vm_compute; reflexivity|].
  split; [vm_compute; reflexivity|].
  destruct (proj2 (@failed_job_ends_polling three_jobs failed_and_stuck
                     first_job Hin Hfails)) as (fuel & e & w' & H & _).
  exists fuel, e, w'. exact H.
Defined.

(** C9 as stated fails on its example: the object [.parquet] keeps its
    whole name as base name, and the assertion, not an index error, is
    what stops the run. *)
Lemma dot_parquet_fails_the_assertion :
  fst (splitext (basename (py "gs://b/raw/orders/.parquet"))) = py ".parquet"
  /\ sanitized_base (py "gs://b/raw/orders/.parquet") = py "_parquet"
  /\ leading_letter_check (U := latin1)
       (sanitized_base (py "gs://b/raw/orders/.parquet"))
     = Raise (AssertionError "table_name must start with a letter")
  /\ leading_letter_check (U := latin1)
       (sanitized_base (py "gs://b/raw/orders/.parquet"))
     <> Raise IndexError.
Proof.
  split; [vm_compute; reflexivity|].
  split; [vm_compute; reflexivity|].
  split; [vm_compute; reflexivity|].
  vm_compute. discriminate.
Qed.


(** * Further properties *)

(** ** File names *)

Lemma rfind_absent (c : char) (s : str) :
  ~ In c s -> rfind c s = (-1)%Z.
Proof.
  induction s as [|x s IH]; [reflexivity|]. intros H. cbn [rfind].
  rewrite IH by (intros K; apply H; now right). cbn.
  destruct (char_eqb x c) eqn:E; [|reflexivity].
  apply char_eqb_eq in E. exfalso. apply H. now left.
Qed.

Lemma rfind_app (c : char) (a s : str) :
  rfind c (a ++ s)
  = if (0 <=? rfind c s)%Z then (Z.of_nat (length a) + rfind c s)%Z
    else rfind c a.
Proof.
  assert (B := rfind_bounds c s).
  induction a as [|x a IH].
  - cbn [app length rfind]. destruct (0 <=? rfind c s)%Z eqn:E; [reflexivity|].
    apply Z.leb_gt in E. lia.
  - cbn [app rfind length]. rewrite IH, Nat2Z.inj_succ.
    destruct (0 <=? rfind c s)%Z eqn:E; [|reflexivity].
    apply Z.leb_le in E.
    destruct (0 <=? Z.of_nat (length a) + rfind c s)%Z eqn:E2; [lia|].
    apply Z.leb_gt in E2. lia.
Qed.

Lemma skipn_app_cons {A : Type} (a : list A) (x : A) (s : list A) (n : nat) :
  skipn (length a + S n) (a ++ x :: s) = skipn n s.
Proof. induction a as [|y a IH]; [reflexivity | exact IH]. Qed.

Lemma basename_app_slash (a s : str) : basename (a ++ slash :: s) = basename s.
Proof.
  unfold basename, slice_from. rewrite rfind_app.
  assert (B := rfind_bounds slash s). cbn [rfind].
  rewrite char_eqb_refl.
  destruct (0 <=? rfind slash s)%Z eqn:E.
  - apply Z.leb_le in E.
    replace (0 <=? rfind slash s + 1)%Z with true
      by (symmetry; apply Z.leb_le; lia).
    replace (Z.to_nat (Z.of_nat (length a) + (rfind slash s + 1) + 1))
      with (length a + S (Z.to_nat (rfind slash s + 1))) by lia.
    apply skipn_app_cons.
  - apply Z.leb_gt in E. cbn [Z.leb Z.compare].
    replace (Z.to_nat (Z.of_nat (length a) + 0 + 1)) with (length a + 1)
      by lia.
    replace (rfind slash s) with (-1)%Z by lia.
    apply (skipn_app_cons a slash s 0).
Qed.

Lemma gs_uri_basename (bucket_name name : str) :
  basename (gs_uri bucket_name name) = basename name.
Proof.
  unfold gs_uri. rewrite app_assoc.
  change (py "/" ++ name) with (slash :: name). apply basename_app_slash.
Qed.

(** X1.  [list_files] answers the [gs://] URI of every object of the bucket
    whose name starts with the prefix, in the order of the listing, and the
    file name of each URI is the file name of its object: bucket and
    folders do not reach the table identifier.  It fails only with the
    failure of one of its two calls; for a bucket that is not there that
    is not-found. *)
Theorem list_files_spec (bucket_name prefix : str) (delimeter : option char)
    (w : world) :
  match fst (list_files bucket_name prefix delimeter w) with
  | Return files =>
      exists names,
        assoc bucket_name (w_buckets w) = Some names
        /\ files = map (gs_uri bucket_name)
                     (fst (listing names prefix delimeter))
        /\ map sanitized_base files
           = map sanitized_base (fst (listing names prefix delimeter))
        /\ (forall name, In name (fst (listing names prefix delimeter)) ->
              In name names /\ startswith prefix name = true)
        /\ (delimeter = None ->
            fst (listing names prefix delimeter)
            = filter (startswith prefix) names)
  | Raise e =>
      w_fault w (GetBucket bucket_name) = Some e
      \/ w_fault w (ListBlobs bucket_name prefix delimeter) = Some e
      \/ (e = NotFound /\ assoc bucket_name (w_buckets w) = None)
  end.
Proof.
  unfold list_files, bind. rewrite get_bucket_run.
  destruct (w_fault w (GetBucket bucket_name)) as [x|]; [now left|].
  destruct (assoc bucket_name (w_buckets w)) as [names|] eqn:A;
    [|right; right; auto].
  rewrite list_blobs_run. cbn [w_fault w_buckets emit set_trace].
  destruct (w_fault w (ListBlobs bucket_name prefix delimeter)) as [x|];
    [right; now left|].
  rewrite A. cbn [fst ret]. exists names.
  split; [reflexivity|]. split; [reflexivity|].
  split; [|split].
  - rewrite map_map. apply map_ext. intros name. unfold sanitized_base.
    change (py "gs://" ++ bucket_name ++ py "/" ++ name)
      with (gs_uri bucket_name name).
    now rewrite gs_uri_basename.
  - intros name Hin. unfold listing in Hin.
    destruct delimeter as [d|]; cbn [fst] in Hin.
    + apply filter_In in Hin. destruct Hin as [Hin _].
      apply filter_In in Hin. exact Hin.
    + apply filter_In in Hin. exact Hin.
  - intros ->. reflexivity.
Qed.

Lemma slice_one (p : str) (i : nat) (c : char) (rest : str) :
  skipn i p = c :: rest -> slice p (Z.of_nat i) (Z.of_nat i + 1) = [c].
Proof.
  intros E. unfold slice.
  replace (Z.to_nat (Z.of_nat i + 1 - Z.of_nat i)) with 1 by lia.
  now rewrite Nat2Z.id, E.
Qed.

Lemma splitext_scan_existsb (p : str) (n : nat) :
  forall i : nat,
    i + n <= length p ->
    splitext_scan n p (Z.of_nat i)
    = existsb (fun c => negb (char_eqb c dot)) (firstn n (skipn i p)).
Proof.
  induction n as [|n IH]; intros i Hi; [reflexivity|].
  destruct (skipn i p) as [|c rest] eqn:E.
  - apply skipn_nil_inv in E. lia.
  - cbn [splitext_scan firstn existsb]. rewrite (slice_one p i E).
    cbn [str_eqb]. rewrite andb_true_r.
    destruct (char_eqb c dot); [|reflexivity]. cbn [negb orb].
    replace (Z.of_nat i + 1)%Z with (Z.of_nat (S i)) by lia.
    rewrite IH by lia.
    replace (skipn (S i) p) with rest; [reflexivity|].
    change (S i) with (1 + i). now rewrite <- skipn_skipn, E.
Qed.

Lemma splitext_stem (stem ext : str) :
  ~ In slash stem -> ~ In slash ext -> ~ In dot ext ->
  existsb (fun c => negb (char_eqb c dot)) stem = true ->
  splitext (stem ++ dot :: ext) = (stem, dot :: ext).
Proof.
  intros Hs1 Hs2 Hd Hstem. unfold splitext.
  assert (S : rfind slash (stem ++ dot :: ext) = (-1)%Z).
  { apply rfind_absent. intros H. apply in_app_or in H.
    destruct H as [H | [H | H]]; [auto | discriminate H | auto]. }
  assert (D : rfind dot (stem ++ dot :: ext) = Z.of_nat (length stem)).
  { assert (E : rfind dot (dot :: ext) = 0%Z)
      by (cbn [rfind]; rewrite (rfind_absent dot ext Hd); reflexivity).
    rewrite rfind_app, E. cbn [Z.leb Z.compare]. lia. }
  rewrite S, D.
  replace (-1 <? Z.of_nat (length stem))%Z with true
    by (symmetry; apply Z.ltb_lt; lia).
  replace (Z.to_nat (Z.of_nat (length stem) - (-1 + 1))) with (length stem)
    by lia.
  change (-1 + 1)%Z with (Z.of_nat 0).
  rewrite splitext_scan_existsb by (rewrite length_app; lia).
  cbn [skipn]. rewrite firstn_app, firstn_all, Nat.sub_diag. cbn [firstn].
  rewrite app_nil_r, Hstem. unfold slice_to, slice_from. rewrite Nat2Z.id.
  rewrite firstn_app, firstn_all, Nat.sub_diag. cbn [firstn].
  rewrite app_nil_r. f_equal.
  replace (length stem) with (length stem + 0) by lia.
  now rewrite skipn_app, skipn_all2, Nat.add_comm, Nat.add_sub by lia.
Qed.

(** X2.  Only the last extension of the file name is dropped, and the
    folders before the file name with it: for a name [stem.ext] under any
    path, where [ext] holds no dot and the stem is more than dots, the
    table name is the sanitized stem.  Files that differ in their folder
    or in their extension derive the same table. *)
Theorem table_of_stem (dir stem ext : str)
    (Hstem_slash : ~ In slash stem) (Hext_slash : ~ In slash ext)
    (Hext_dot : ~ In dot ext)
    (Hstem : existsb (fun c => negb (char_eqb c dot)) stem = true) :
  sanitized_base (dir ++ slash :: stem ++ dot :: ext) = re_sub_ident stem
  /\ sanitized_base (stem ++ dot :: ext) = re_sub_ident stem
  /\ forall table_name_prefix dir' ext',
       ~ In slash ext' -> ~ In dot ext' ->
       table_id table_name_prefix (dir' ++ slash :: stem ++ dot :: ext')
       = table_id table_name_prefix (dir ++ slash :: stem ++ dot :: ext).
Proof.
  assert (K : forall d e, ~ In slash e -> ~ In dot e ->
                sanitized_base (d ++ slash :: stem ++ dot :: e)
                = re_sub_ident stem).
  { intros d e He1 He2. unfold sanitized_base.
    rewrite basename_app_slash.
    assert (B : basename (stem ++ dot :: e) = stem ++ dot :: e).
    { unfold basename, slice_from. rewrite rfind_absent; [reflexivity|].
      intros H. apply in_app_or in H.
      destruct H as [H | [H | H]]; [auto | discriminate H | auto]. }
    now rewrite B, splitext_stem. }
  split; [now apply K|]. split.
  - unfold sanitized_base.
    assert (B : basename (stem ++ dot :: ext) = stem ++ dot :: ext).
    { unfold basename, slice_from. rewrite rfind_absent; [reflexivity|].
      intros H. apply in_app_or in H.
      destruct H as [H | [H | H]]; [auto | discriminate H | auto]. }
    now rewrite B, splitext_stem.
  - intros tnp d' e' He1 He2. unfold table_id. now rewrite !K.
Qed.

Lemma is_letter_sub (c : char) :
  is_letter (if ident_char c then c else underscore) = is_letter c.
Proof.
  destruct (ident_char c) eqn:E; [reflexivity|].
  rewrite ident_char_cases in E. apply orb_false_iff in E.
  destruct E as [E _]. apply orb_false_iff in E. destruct E as [E _].
  now rewrite E.
Qed.

Section Acceptance.
Context {U : Unicode}.

(** X3.  A file passes the leading-letter check exactly when its file name
    without extension begins, before any substitution, with one of the
    letters a-z or A-Z: a name that begins with any other character, a
    letter outside ASCII included, is refused. *)
Theorem accepted_names (file table_name_prefix : str) (w : world) :
  (leading_letter_check (sanitized_base file) = Return tt
   <-> exists c rest,
         fst (splitext (basename file)) = c :: rest /\ is_letter c = true)
  /\ (fst (table_name_of_file table_name_prefix file w)
      = Return (table_id table_name_prefix file)
      <-> exists c rest,
            fst (splitext (basename file)) = c :: rest
            /\ is_letter c = true).
Proof.
  assert (K : leading_letter_check (sanitized_base file) = Return tt
              <-> exists c rest,
                    fst (splitext (basename file)) = c :: rest
                    /\ is_letter c = true).
  { unfold sanitized_base.
    destruct (fst (splitext (basename file))) as [|c rest].
    - cbn. split; [discriminate | intros (c & r & H & _); discriminate H].
    - cbn [re_sub_ident map].
      rewrite leading_letter_check_sanitized by apply ident_char_sub.
      rewrite is_letter_sub. unfold assert. split.
      + destruct (is_letter c) eqn:L; [|discriminate]. intros _.
        now exists c, rest.
      + intros (c' & r & H & L). injection H as <- <-. now rewrite L. }
  split; [exact K|]. rewrite <- K, table_name_of_file_run. cbn [fst].
  unfold table_id.
  destruct (leading_letter_check (sanitized_base file)) as [[]|e];
    split; auto; discriminate.
Qed.

End Acceptance.

(** X4.  The table name prefix is used as it is given: the identifier of a
    file holds only letters, digits and underscores exactly when the
    prefix does. *)
Theorem prefix_is_not_sanitized (table_name_prefix file : str) :
  forallb ident_char (table_id table_name_prefix file)
  = forallb ident_char table_name_prefix.
Proof.
  unfold table_id. rewrite forallb_app, sanitized_base_valid.
  apply andb_true_r.
Qed.

(** ** What the steps before the polling loop keep *)

Section Frame.
Variable R : world -> world -> Prop.
Hypothesis HR : gentle R.

Let R_refl : forall w, R w w := proj1 HR.
Let R_trans : forall a b c, R a b -> R b c -> R a c := proj1 (proj2 HR).
Let R_emit : forall e w, is_request e = true -> R w (emit e w)
  := proj1 (proj2 (proj2 HR)).
Let R_log : forall l m w, R w (log l m w)
  := proj1 (proj2 (proj2 (proj2 HR))).
Let R_set : forall w d, R w (set_datasets w d)
  := proj2 (proj2 (proj2 (proj2 HR))).

Lemma steps_ret {A : Type} (a : A) : steps R (ret a).
Proof. intros w. apply R_refl. Qed.

Lemma steps_lift {A : Type} (o : outcome A) : steps R (lift o).
Proof. intros w. apply R_refl. Qed.

Lemma steps_logger_info (m : message) : steps R (logger_info m).
Proof. intros w. apply R_log. Qed.

Lemma steps_bind {A B : Type} (m : M A) (k : A -> M B) :
  steps R m -> (forall a, steps R (k a)) -> steps R (bind m k).
Proof.
  intros Hm Hk w. unfold bind. specialize (Hm w).
  destruct (m w) as [[a | e] w1]; [|exact Hm].
  eapply R_trans; [exact Hm | apply Hk].
Qed.

Lemma steps_try {A : Type} (body handler : M A) :
  steps R body -> steps R handler ->
  steps R (try_except_NotFound body handler).
Proof.
  intros Hb Hh w. unfold try_except_NotFound. specialize (Hb w).
  destruct (body w) as [[a | e] w1]; [exact Hb|].
  destruct e; try exact Hb. eapply R_trans; [exact Hb | apply Hh].
Qed.

Lemma steps_request (e : event) : is_request e = true -> steps R (request e).
Proof. intros He w. rewrite request_run. now apply R_emit. Qed.

Lemma steps_get_bucket (bucket_name : str) : steps R (get_bucket bucket_name).
Proof.
  intros w. rewrite get_bucket_run. now apply R_emit.
Qed.

Lemma steps_list_blobs (bucket_name prefix : str) (d : option char) :
  steps R (list_blobs bucket_name prefix d).
Proof. intros w. rewrite list_blobs_run. now apply R_emit. Qed.

Lemma steps_list_files (bucket_name prefix : str) (d : option char) :
  steps R (list_files bucket_name prefix d).
Proof.
  apply steps_bind; [apply steps_get_bucket|]. intros _.
  apply steps_bind; [apply steps_list_blobs|]. intros blobs.
  apply steps_ret.
Qed.

Lemma steps_get_dataset (dataset_name : str) :
  steps R (get_dataset dataset_name).
Proof. intros w. rewrite get_dataset_run. now apply R_emit. Qed.

Lemma steps_create_dataset (dataset_name : str) :
  steps R (create_dataset dataset_name).
Proof.
  intros w. rewrite create_dataset_run.
  destruct (w_fault w _); [now apply R_emit|].
  destruct (assoc dataset_name (w_datasets w)); [now apply R_emit|].
  eapply R_trans; [|apply R_set]. now apply R_emit.
Qed.

Lemma steps_ensure_dataset (dataset_name : str) :
  steps R (ensure_dataset dataset_name).
Proof.
  apply steps_try; [|apply steps_create_dataset].
  apply steps_bind; [apply steps_get_dataset|]. intros d.
  apply steps_bind; [apply steps_logger_info|]. intros _. apply steps_ret.
Qed.

Lemma steps_list_tables (dataset_name : str) :
  steps R (list_tables dataset_name).
Proof.
  apply steps_bind; [now apply steps_request|]. intros _ w.
  destruct (tables_of w dataset_name); apply R_refl.
Qed.

Section FrameOfLoop.
Context {U : Unicode}.
Hypothesis R_add : forall w j, R w (add_job w j).

Lemma steps_process_file (dataset_name table_name_prefix : str)
    (all_tables_in_dataset : list str) (jobs : list job) (file : str) :
  steps R (process_file dataset_name table_name_prefix
             all_tables_in_dataset jobs file).
Proof.
  intros w. rewrite process_file_run. cbv zeta.
  assert (H1 : R w (log INFO (TableName (sanitized_base file))
                      (log INFO (ProcessingFile file) w)))
    by (eapply R_trans; apply R_log).
  destruct (leading_letter_check (sanitized_base file)); [|exact H1].
  destruct (str_in _ all_tables_in_dataset);
    [eapply R_trans; [exact H1 | apply R_log]|].
  destruct (w_fault w _);
    [eapply R_trans; [exact H1 | now apply R_emit]|].
  cbn [snd]. eapply R_trans; [exact H1|].
  eapply R_trans; [|apply R_log]. eapply R_trans; [|apply R_add].
  now apply R_emit.
Qed.

Lemma steps_submit_jobs (dataset_name table_name_prefix : str)
    (all_tables_in_dataset files : list str) :
  forall jobs,
    steps R (submit_jobs dataset_name table_name_prefix
               all_tables_in_dataset files jobs).
Proof.
  induction files as [|file files IH]; intros jobs; cbn [submit_jobs].
  - apply steps_ret.
  - apply steps_bind; [apply steps_process_file | exact IH].
Qed.

Lemma steps_start_jobs (bucket_name bucket_prefix dataset_name
    table_name_prefix : str) :
  steps R (start_jobs bucket_name bucket_prefix dataset_name
             table_name_prefix).
Proof.
  apply steps_bind; [apply steps_ensure_dataset|]. intros _.
  apply steps_bind; [apply steps_list_tables|]. intros tables.
  apply steps_bind; [apply steps_list_files|]. intros files.
  apply steps_submit_jobs.
Qed.

End FrameOfLoop.
End Frame.

Lemma gentle_same_service : gentle same_service.
Proof.
  unfold gentle, same_service.
  split; [auto|]. split; [|repeat split].
  intros a b c (H1 & H2 & H3 & H4) (K1 & K2 & K3 & K4).
  repeat split; congruence.
Qed.

Lemma gentle_only_requests : gentle only_requests.
Proof.
  unfold gentle, only_requests. split; [|split; [|split; [|split]]].
  - intros w. split; [exists []; now rewrite app_nil_r | reflexivity].
  - intros a b c ((e1 & T1 & F1) & C1) ((e2 & T2 & F2) & C2).
    split; [|congruence]. exists (e1 ++ e2).
    rewrite T2, T1, app_assoc, forallb_app, F1, F2. auto.
  - intros e w He. split; [|reflexivity]. exists [e]. cbn. now rewrite He.
  - intros l m w. split; [exists []; now rewrite app_nil_r | reflexivity].
  - intros w d. split; [exists []; now rewrite app_nil_r | reflexivity].
Qed.

Lemma gentle_nothing_submitted : gentle nothing_submitted.
Proof.
  unfold gentle, nothing_submitted.
  split; [auto|]. split; [|repeat split].
  intros a b c [H1 H2] [K1 K2]. split; congruence.
Qed.

Lemma only_requests_add_job (w : world) (j : job) :
  only_requests w (add_job w j).
Proof. split; [exists []; now rewrite app_nil_r | reflexivity]. Qed.

Lemma same_service_add_job (w : world) (j : job) :
  same_service w (add_job w j).
Proof. repeat split. Qed.

Section BeforePolling.
Context {U : Unicode}.

Lemma start_jobs_run (bucket_name bucket_prefix dataset_name
    table_name_prefix : str) (w : world) :
  start_jobs bucket_name bucket_prefix dataset_name table_name_prefix w
  = match ensure_dataset dataset_name w with
    | (Raise e, w1) => (Raise e, w1)
    | (Return _, w1) =>
        match list_tables dataset_name w1 with
        | (Raise e, w2) => (Raise e, w2)
        | (Return all_tables_in_dataset, w2) =>
            match list_files bucket_name bucket_prefix None w2 with
            | (Raise e, w3) => (Raise e, w3)
            | (Return files, w3) =>
                submit_jobs dataset_name table_name_prefix
                  all_tables_in_dataset files [] w3
            end
        end
    end.
Proof.
  unfold start_jobs. unfold bind at 1.
  destruct (ensure_dataset dataset_name w) as [[d | e] w1]; [|reflexivity].
  unfold bind at 1.
  destruct (list_tables dataset_name w1) as [[t | e] w2]; [|reflexivity].
  unfold bind at 1.
  destruct (list_files bucket_name bucket_prefix None w2) as [[f | e] w3];
    reflexivity.
Qed.

Lemma start_jobs_jobs (bucket_name bucket_prefix dataset_name
    table_name_prefix : str) (w : world) (jobs : list job) :
  fst (start_jobs bucket_name bucket_prefix dataset_name
         table_name_prefix w) = Return jobs ->
  jobs = submitted_since w
           (snd (start_jobs bucket_name bucket_prefix dataset_name
                   table_name_prefix w)).
Proof.
  rewrite start_jobs_run.
  assert (H1 := steps_ensure_dataset gentle_nothing_submitted dataset_name w).
  destruct (ensure_dataset dataset_name w) as [[d | e] w1];
    [|discriminate]. cbn [snd] in H1.
  assert (H2 := steps_list_tables gentle_nothing_submitted dataset_name w1).
  destruct (list_tables dataset_name w1) as [[tables | e] w2];
    [|discriminate]. cbn [snd] in H2.
  assert (H3 := steps_list_files gentle_nothing_submitted bucket_name
                  bucket_prefix None w2).
  destruct (list_files bucket_name bucket_prefix None w2)
    as [[files | e] w3]; [|discriminate]. cbn [snd] in H3.
  assert (E : w_submitted w3 = w_submitted w).
  { destruct H1 as [H1 _], H2 as [H2 _], H3 as [H3 _]. congruence. }
  destruct (submit_jobs_spec dataset_name table_name_prefix tables files []
              w3)
    as (nj & nl & Hs & _ & _ & _ & _ & _ & _ & _ & Hok & Hko).
  intros Hret. unfold submitted_since.
  rewrite Hs, E, skipn_app_exact.
  destruct (list_eq_dec (list_eq_dec N.eq_dec)
              (reached (w_fault w3) dataset_name table_name_prefix tables
                 files) files) as [Eq | Ne].
  - rewrite (Hok Eq) in Hret. now injection Hret.
  - destruct (Hko Ne) as [e He]. rewrite He in Hret. discriminate Hret.
Qed.

(** X5.  Nothing is polled before the submission loop has ended: up to
    there the program only makes requests, the clock of the polls stands
    still, and the jobs handed to the polling loop are the jobs this call
    submitted.  When that part raises, the exception leaves the function at
    once, so jobs already submitted are never polled. *)
Theorem no_poll_before_all_submitted (bucket_name bucket_prefix dataset_name
    table_name_prefix : str) (w : world) :
  let r := start_jobs bucket_name bucket_prefix dataset_name
             table_name_prefix w in
  forallb is_request (trace_since w (snd r)) = true
  /\ w_clock (snd r) = w_clock w
  /\ same_service w (snd r)
  /\ (forall jobs, fst r = Return jobs ->
        jobs = submitted_since w (snd r))
  /\ (forall e, fst r = Raise e ->
        forall fuel,
          load_prefix_to_dataset fuel bucket_name bucket_prefix
            dataset_name table_name_prefix w = Some (Raise e, snd r)).
Proof.
  intros r.
  destruct (steps_start_jobs gentle_only_requests only_requests_add_job
              bucket_name bucket_prefix dataset_name table_name_prefix w)
    as ((evs & T & F) & C).
  fold r in T, C.
  split; [unfold trace_since; now rewrite T, skipn_app_exact|].
  split; [exact C|].
  split; [apply (steps_start_jobs gentle_same_service same_service_add_job)|].
  split; [intros jobs; apply start_jobs_jobs|].
  intros e He fuel. unfold load_prefix_to_dataset. fold r.
  destruct r as [o w1]. cbn in He. now subst o.
Qed.

End BeforePolling.


(** ** Returning *)

Lemma poll_until_done_frame (fuel : nat) :
  forall (jobs : list job) (w : world) (o : outcome unit) (w' : world),
    poll_until_done fuel jobs w = Some (o, w') ->
    w_done_at w' = w_done_at w /\ w_error_result w' = w_error_result w.
Proof.
  induction fuel as [|fuel IH]; intros jobs w o w' H; [discriminate H|].
  cbn [poll_until_done] in H.
  destruct (scan_iterates jobs w) as (o1 & w1 & E & I). rewrite E in H.
  destruct (iterates_frame I) as (Hd & He & _).
  destruct o1 as [jobs1 | e1]; [|injection H as <- <-; auto].
  destruct (Nat.eqb (length jobs1) 0).
  - injection H as <- <-. auto.
  - destruct (IH _ _ _ _ H) as [Hd' He']. split; congruence.
Qed.

Section Returning.
Context {U : Unicode}.

Lemma load_prefix_to_dataset_le (fuel fuel' : nat) (bucket_name bucket_prefix
    dataset_name table_name_prefix : str) (w : world)
    (r : outcome unit * world) :
  fuel <= fuel' ->
  load_prefix_to_dataset fuel bucket_name bucket_prefix dataset_name
    table_name_prefix w = Some r ->
  load_prefix_to_dataset fuel' bucket_name bucket_prefix dataset_name
    table_name_prefix w = Some r.
Proof.
  intros Hle. unfold load_prefix_to_dataset.
  destruct (start_jobs _ _ _ _ w) as [[jobs | e] w1]; [|auto].
  now apply poll_until_done_le.
Qed.

Lemma load_prefix_to_dataset_done_at (fuel : nat) (bucket_name bucket_prefix
    dataset_name table_name_prefix : str) (w : world) (o : outcome unit)
    (w' : world) :
  load_prefix_to_dataset fuel bucket_name bucket_prefix dataset_name
    table_name_prefix w = Some (o, w') ->
  w_done_at w' = w_done_at w.
Proof.
  unfold load_prefix_to_dataset.
  destruct (steps_start_jobs gentle_same_service same_service_add_job
              bucket_name bucket_prefix dataset_name table_name_prefix w)
    as (Hd & _).
  destruct (start_jobs _ _ _ _ w) as [[jobs | e] w1]; cbn [snd] in Hd.
  - intros P. destruct (@poll_until_done_frame _ _ _ _ _ P) as [Hd' _].
    congruence.
  - intros H. now injection H as _ <-.
Qed.

Lemma load_prefix_to_dataset_enough (bucket_name bucket_prefix dataset_name
    table_name_prefix : str) (w : world) :
  (forall jobs,
     fst (start_jobs bucket_name bucket_prefix dataset_name
            table_name_prefix w) = Return jobs ->
     forall j, In j jobs -> w_done_at w (job_id j) <> None) ->
  exists fuel res,
    load_prefix_to_dataset fuel bucket_name bucket_prefix dataset_name
      table_name_prefix w = Some res.
Proof.
  intros H. unfold load_prefix_to_dataset.
  assert (Hd := proj1 (steps_start_jobs gentle_same_service
                         same_service_add_job bucket_name bucket_prefix
                         dataset_name table_name_prefix w)).
  destruct (start_jobs _ _ _ _ w) as [[jobs | e] w1]; cbn [fst snd] in *;
    [|exists 0; eexists; reflexivity].
  apply poll_until_done_iff. left.
  intros j Hj. rewrite Hd. now apply (H jobs).
Qed.


Lemma for_prefixes_le (fuel fuel' : nat) (bucket_name table_name_prefix : str)
    (prefixes : list str) :
  fuel <= fuel' ->
  forall (w : world) (r : outcome unit * world),
    for_prefixes fuel bucket_name table_name_prefix prefixes w = Some r ->
    for_prefixes fuel' bucket_name table_name_prefix prefixes w = Some r.
Proof.
  intros Hle. induction prefixes as [|p prefixes IH]; intros w r H; [exact H|].
  cbn [for_prefixes] in H |- *.
  destruct (load_prefix_to_dataset fuel bucket_name (rstrip slash p)
              (re_sub_ident (rstrip slash p)) table_name_prefix w)
    as [[o w1]|] eqn:L; [|discriminate H].
  rewrite (@load_prefix_to_dataset_le _ _ _ _ _ _ _ _ Hle L).
  destruct o; [now apply IH | exact H].
Qed.

Lemma for_prefixes_returns (bucket_name table_name_prefix : str)
    (prefixes : list str) :
  forall w : world,
    (forall id, w_done_at w id <> None) ->
    exists fuel r,
      for_prefixes fuel bucket_name table_name_prefix prefixes w = Some r.
Proof.
  induction prefixes as [|p prefixes IH]; intros w Hdone.
  - exists 0. eexists. reflexivity.
  - destruct (load_prefix_to_dataset_enough bucket_name (rstrip slash p)
                (re_sub_ident (rstrip slash p)) table_name_prefix w)
      as (f1 & [o1 w1] & L1); [intros; apply Hdone|].
    destruct o1 as [[] | e].
    + destruct (IH w1) as (f2 & r & L2).
      { intros id.
        rewrite (@load_prefix_to_dataset_done_at _ _ _ _ _ _ _ _ L1).
        apply Hdone. }
      exists (Nat.max f1 f2), r. cbn [for_prefixes].
      rewrite (@load_prefix_to_dataset_le _ _ _ _ _ _ _ _
                 (Nat.le_max_l f1 f2) L1).
      apply (@for_prefixes_le _ _ _ _ _ (Nat.le_max_r f1 f2)), L2.
    + exists f1. eexists. cbn [for_prefixes]. rewrite L1. reflexivity.
Qed.


Lemma load_all_datasets_le (fuel fuel' : nat) (bucket_name bucket_prefix
    table_name_prefix : str) (w : world) (r : outcome unit * world) :
  fuel <= fuel' ->
  load_all_datasets fuel bucket_name bucket_prefix table_name_prefix w
  = Some r ->
  load_all_datasets fuel' bucket_name bucket_prefix table_name_prefix w
  = Some r.
Proof.
  intros Hle. unfold load_all_datasets.
  destruct ((_ <- get_bucket bucket_name ;;
             list_blobs bucket_name bucket_prefix (Some slash)) w)
    as [[blobs | e] w1]; [|auto].
  now apply for_prefixes_le.
Qed.

(** X7.  When every job the warehouse accepts reports done from some tick
    on, [load_all_datasets] returns, normally or with the exception that
    stopped it; what it returns does not depend on how long it is let
    run. *)
Theorem load_all_datasets_returns (bucket_name bucket_prefix
    table_name_prefix : str) (w : world)
    (Hdone : forall id, w_done_at w id <> None) :
  (exists fuel r,
     load_all_datasets fuel bucket_name bucket_prefix table_name_prefix w
     = Some r)
  /\ (forall fuel fuel' r r',
        load_all_datasets fuel bucket_name bucket_prefix table_name_prefix w
        = Some r ->
        load_all_datasets fuel' bucket_name bucket_prefix table_name_prefix w
        = Some r' ->
        r = r').
Proof.
  split.
  - unfold load_all_datasets.
    assert (Hd : w_done_at
                   (snd ((_ <- get_bucket bucket_name ;;
                          list_blobs bucket_name bucket_prefix (Some slash))
                           w)) = w_done_at w).
    { apply (steps_bind gentle_same_service);
        [apply (steps_get_bucket gentle_same_service)|].
      intros _. apply (steps_list_blobs gentle_same_service). }
    destruct ((_ <- get_bucket bucket_name ;;
               list_blobs bucket_name bucket_prefix (Some slash)) w)
      as [[blobs | e] w1]; cbn [snd] in Hd;
      [|exists 0; eexists; reflexivity].
    apply for_prefixes_returns. intros id. rewrite Hd. apply Hdone.
  - intros fuel fuel' r r' H H'.
    destruct (Nat.le_ge_cases fuel fuel') as [L | L].
    + rewrite (@load_all_datasets_le _ _ _ _ _ _ _ L H) in H'.
      now injection H'.
    + rewrite (@load_all_datasets_le _ _ _ _ _ _ _ L H') in H.
      now injection H.
Qed.

End Returning.


(** ** A bucket that is not there *)

Lemma assoc_app_new {V : Type} (k : str) (v : V) (l : list (str * V)) :
  assoc k l = None -> assoc k (l ++ [(k, v)]) = Some v.
Proof.
  induction l as [|[k' v'] l IH]; cbn.
  - now rewrite str_eqb_refl.
  - destruct (str_eqb k k'); [discriminate | exact IH].
Qed.

Lemma ensure_dataset_run (dataset_name : str) (w : world) :
  ensure_dataset dataset_name w
  = match fst (get_dataset dataset_name w) with
    | Return dataset =>
        (Return dataset,
         log INFO (GotDataset dataset) (snd (get_dataset dataset_name w)))
    | Raise NotFound =>
        create_dataset dataset_name (snd (get_dataset dataset_name w))
    | Raise e => (Raise e, snd (get_dataset dataset_name w))
    end.
Proof.
  unfold ensure_dataset, try_except_NotFound, bind.
  destruct (get_dataset dataset_name w) as [[d | []] w1]; reflexivity.
Qed.

Section MissingBucket.
Context {U : Unicode}.

(** X8.  With services that answer every call, a bucket that is not there
    makes [load_all_datasets] raise not-found after its first call, with
    nothing created; [load_prefix_to_dataset] raises it too, uncaught, but
    only after it has fetched or created the dataset and listed its
    tables: the dataset is there afterwards, and no job was submitted. *)
Theorem missing_bucket (bucket_name bucket_prefix dataset_name
    table_name_prefix : str) (w : world) (fuel : nat)
    (Hanswer : forall e, w_fault w e = None)
    (Hbucket : assoc bucket_name (w_buckets w) = None) :
  load_all_datasets fuel bucket_name bucket_prefix table_name_prefix w
  = Some (Raise NotFound, emit (GetBucket bucket_name) w)
  /\ exists w',
       load_prefix_to_dataset fuel bucket_name bucket_prefix dataset_name
         table_name_prefix w = Some (Raise NotFound, w')
       /\ assoc dataset_name (w_datasets w') <> None
       /\ w_submitted w' = w_submitted w
       /\ trace_since w w'
          = GetDataset dataset_name
            :: match assoc dataset_name (w_datasets w) with
               | Some _ => []
               | None => [CreateDataset dataset_name]
               end
            ++ [ListTables dataset_name; GetBucket bucket_name].
Proof.
  split.
  - unfold load_all_datasets, bind. rewrite get_bucket_run, Hanswer, Hbucket.
    reflexivity.
  - unfold load_prefix_to_dataset. rewrite start_jobs_run, ensure_dataset_run.
    rewrite get_dataset_run, Hanswer. cbn [fst snd].
    destruct (assoc dataset_name (w_datasets w)) as [tables|] eqn:A.
    + unfold list_tables, bind. rewrite request_run. simpl_world.
      rewrite Hanswer. unfold tables_of. simpl_world. rewrite A.
      unfold list_files, bind. rewrite get_bucket_run. simpl_world.
      rewrite Hanswer, Hbucket.
      eexists. split; [reflexivity|]. simpl_world. rewrite A.
      split; [discriminate|]. split; [reflexivity|].
      unfold trace_since. cbn. rewrite <- !app_assoc.
      now rewrite skipn_app_exact.
    + rewrite create_dataset_run. simpl_world. rewrite Hanswer, A.
      unfold list_tables, bind. rewrite request_run. simpl_world.
      rewrite Hanswer. unfold tables_of. simpl_world.
      rewrite (assoc_app_new dataset_name [] (w_datasets w) A).
      unfold list_files, bind. rewrite get_bucket_run. simpl_world.
      rewrite Hanswer, Hbucket.
      eexists. split; [reflexivity|]. simpl_world.
      rewrite (assoc_app_new dataset_name [] (w_datasets w) A).
      split; [discriminate|]. split; [reflexivity|].
      unfold trace_since. cbn. rewrite <- !app_assoc.
      now rewrite skipn_app_exact.
Qed.

End MissingBucket.

(** ** The report of the polling loop *)


(** ** A scan of jobs that are all done *)

Lemma remove_job_at (jobs : list job) :
  forall (i : nat) (j : job),
    NoDup (map job_id jobs) -> nth_error jobs i = Some j ->
    remove_job j jobs = firstn i jobs ++ skipn (S i) jobs.
Proof.
  induction jobs as [|x jobs IH]; intros i j Hnd E;
    [destruct i; discriminate E|].
  cbn [map] in Hnd. apply NoDup_cons_iff in Hnd. destruct Hnd as [Hx Hnd].
  destruct i as [|i]; cbn in E.
  - injection E as ->. cbn. now rewrite Nat.eqb_refl.
  - cbn [remove_job firstn skipn app].
    destruct (Nat.eqb (job_id x) (job_id j)) eqn:Q.
    + apply Nat.eqb_eq in Q. exfalso. apply Hx. rewrite Q.
      apply in_map. eapply nth_error_In, E.
    + f_equal. now apply IH.
Qed.

Lemma every_other_tail (j : job) (post : list job) :
  every_other (j :: post) = firstn 1 post ++ every_other (skipn 1 post).
Proof. destruct post; reflexivity. Qed.

Lemma every_other_length (l : list job) :
  length (every_other l) = Nat.div2 (length l).
Proof.
  induction l as [l IH] using (induction_ltof1 _ (@length job)).
  unfold ltof in IH.
  destruct l as [|a [|b r]]; [reflexivity | reflexivity|].
  cbn [every_other length Nat.div2]. rewrite IH; [reflexivity | cbn [length]; lia].
Qed.

Lemma every_other_step (pre post : list job) (i : nat) :
  length pre = i ->
  firstn (S i) (pre ++ post) ++ every_other (skipn (S i) (pre ++ post))
  = (pre ++ firstn 1 post) ++ every_other (skipn 1 post).
Proof.
  intros <-. induction pre as [|x pre IH]; [reflexivity|].
  cbn [length app]. rewrite firstn_cons, skipn_cons. cbn [app].
  now rewrite IH.
Qed.

Lemma iterates_all_done (i : nat) (jobs : list job) (w : world)
    (o : outcome (list job)) (w' : world) :
  iterates i jobs w o w' ->
  NoDup (map job_id jobs) ->
  (forall j, In j jobs -> job_is_done w (job_id j) = true) ->
  (forall j, In j jobs -> w_error_result w (job_id j) = None) ->
  o = Return (firstn i jobs ++ every_other (skipn i jobs)).
Proof.
  induction 1 as [i jobs w E | i jobs w j jobs1 w1 o w' E P I IH
                 | i jobs w j e w1 E P];
    intros Hnd Hdone Hok.
  - apply nth_error_None in E.
    now rewrite firstn_all2, skipn_all2, app_nil_r by exact E.
  - destruct (poll_job_return _ _ _ P) as (C1 & C2 & C3 & C).
    assert (Hj : In j jobs) by (eapply nth_error_In, E).
    destruct C as [(D & _) | (_ & _ & -> & _)];
      [rewrite (Hdone j Hj) in D; discriminate D|].
    destruct (remove_job_NoDup j jobs Hnd) as [Hnd1 _].
    rewrite IH; [|exact Hnd1| |].
    + rewrite (remove_job_at jobs i Hnd E).
      assert (Li : length (firstn i jobs) = i).
      { apply firstn_length_le. apply Nat.lt_le_incl.
        apply nth_error_Some. congruence. }
      assert (Sk : skipn i jobs = j :: skipn (S i) jobs).
      { clear - E. revert i E.
        induction jobs as [|x jobs IHj]; intros [|i] E;
          try discriminate E; cbn in E.
        - now injection E as ->.
        - cbn [skipn]. now apply IHj. }
      rewrite Sk, every_other_tail.
      now rewrite (every_other_step (firstn i jobs) (skipn (S i) jobs) Li),
        <- app_assoc.
    + intros x Hx. apply remove_job_incl in Hx.
      apply (job_is_done_later w w1 (job_id x) C2); [lia|].
      now apply Hdone.
    + intros x Hx. apply remove_job_incl in Hx. rewrite C3. now apply Hok.
  - destruct (poll_job_raise _ _ _ P) as (p & _ & _ & N & _).
    rewrite (Hok j (nth_error_In _ _ E)) in N. discriminate N.
Qed.

(** X10.  The scan removes from the list it is iterating over, so it steps
    over the job that follows each job it removes: of jobs that are all
    done and loaded without error it takes out the first, third, ... and
    leaves the second, fourth, ..., half of them, to the next scan. *)
Theorem scan_leaves_every_other (jobs : list job) (w : world)
    (Hhandles : NoDup (map job_id jobs))
    (Hdone : forall j, In j jobs -> job_is_done w (job_id j) = true)
    (Hloaded : forall j, In j jobs -> w_error_result w (job_id j) = None) :
  exists w',
    scan jobs w = Some (Return (every_other jobs), w')
    /\ length (every_other jobs) = Nat.div2 (length jobs)
    /\ length (completed (trace_since w w'))
       = length jobs - Nat.div2 (length jobs).
Proof.
  destruct (scan_iterates jobs w) as (o & w' & E & I).
  assert (J : o = Return (every_other jobs))
    by (rewrite (iterates_all_done I Hhandles Hdone Hloaded); reflexivity).
  subst o.
  destruct (iterates_trace I) as (evs & Ht & _ & Hret & _).
  destruct (Hret _ eq_refl) as (Hl & _).
  exists w'. split; [exact E|].
  split; [apply every_other_length|].
  unfold trace_since. rewrite Ht, skipn_app_exact.
  rewrite every_other_length in Hl. lia.
Qed.

(** ** The polling loop over jobs that loaded *)


(** ** From the bucket to the load jobs *)

Section EndToEnd.
Context {U : Unicode}.

(** X11.  With services that answer every call and a bucket that is there,
    the jobs [load_prefix_to_dataset] submits load, in the order of the
    listing, the objects whose name starts with the prefix, up to the first
    one that fails the leading-letter check, leaving out those whose table
    is in the dataset already; each into the table named after the file.
    It goes on to poll them when no file failed the check, and raises
    otherwise. *)
Theorem jobs_of_a_prefix (bucket_name bucket_prefix dataset_name
    table_name_prefix : str) (names : list str) (w : world)
    (Hanswer : forall e, w_fault w e = None)
    (Hbucket : assoc bucket_name (w_buckets w) = Some names) :
  let files := map (gs_uri bucket_name)
                 (filter (startswith bucket_prefix) names) in
  let snapshot := catalog w dataset_name in
  let r := start_jobs bucket_name bucket_prefix dataset_name
             table_name_prefix w in
  map (fun j => (source_uri j, dest_table j)) (submitted_since w (snd r))
  = map (fun f => (f, table_id table_name_prefix f))
      (to_load table_name_prefix snapshot
         (reached (w_fault w) dataset_name table_name_prefix snapshot files))
  /\ (reached (w_fault w) dataset_name table_name_prefix snapshot files
      = files ->
      fst r = Return (submitted_since w (snd r)))
  /\ (reached (w_fault w) dataset_name table_name_prefix snapshot files
      <> files ->
      exists e, fst r = Raise e).
Proof.
  intros files snapshot r.
  assert (K : exists w3,
            r = submit_jobs dataset_name table_name_prefix snapshot files []
                  w3
            /\ w_submitted w3 = w_submitted w
            /\ w_fault w3 = w_fault w).
  { unfold r. rewrite start_jobs_run, ensure_dataset_run.
    rewrite get_dataset_run, Hanswer. cbn [fst snd].
    unfold snapshot, catalog.
    destruct (assoc dataset_name (w_datasets w)) as [tables|] eqn:A.
    - unfold list_tables, bind. rewrite request_run. simpl_world.
      rewrite Hanswer. unfold tables_of. simpl_world. rewrite A.
      unfold list_files, bind. rewrite get_bucket_run. simpl_world.
      rewrite Hanswer, Hbucket. rewrite list_blobs_run. simpl_world.
      rewrite Hanswer, Hbucket. cbn [ret fst listing].
      eexists. split; [reflexivity|]. split; reflexivity.
    - rewrite create_dataset_run. simpl_world. rewrite Hanswer, A.
      unfold list_tables, bind. rewrite request_run. simpl_world.
      rewrite Hanswer. unfold tables_of. simpl_world.
      rewrite (assoc_app_new dataset_name [] (w_datasets w) A).
      unfold list_files, bind. rewrite get_bucket_run. simpl_world.
      rewrite Hanswer, Hbucket. rewrite list_blobs_run. simpl_world.
      rewrite Hanswer, Hbucket. cbn [ret fst listing].
      eexists. split; [reflexivity|]. split; reflexivity. }
  destruct K as (w3 & Hr & Hsub & Hfault).
  destruct (submit_jobs_spec dataset_name table_name_prefix snapshot files []
              w3)
    as (nj & nl & Hs & _ & Hm & _ & _ & _ & _ & _ & Hok & Hko).
  rewrite <- Hr in Hs, Hok, Hko. rewrite Hfault in Hm, Hok, Hko.
  assert (E : submitted_since w (snd r) = nj)
    by (unfold submitted_since; rewrite Hs, Hsub; apply skipn_app_exact).
  rewrite E. split; [exact Hm|]. split; [exact Hok | exact Hko].
Qed.

End EndToEnd.

(** ** The dataset after the ensurer *)

Lemma assoc_app_old {V : Type} (k : str) (k' : str) (v : V)
    (l : list (str * V)) :
  assoc k l <> None \/ k <> k' -> assoc k (l ++ [(k', v)]) = assoc k l.
Proof.
  induction l as [|[k0 v0] l IH]; cbn.
  - intros [H | H]; [congruence|].
    destruct (str_eqb k k') eqn:E; [|reflexivity].
    apply str_eqb_eq in E. contradiction.
  - destruct (str_eqb k k0); [reflexivity | exact IH].
Qed.

(** X12.  When the ensurer returns, the dataset is there and is the one
    asked for; no other dataset has changed, and a dataset that was there
    keeps its tables.  If fetching it is not refused, ensuring it a second
    time fetches it and creates nothing. *)
Theorem dataset_is_there (dataset_name : str) (w : world) (dataset : str)
    (Hreturns : fst (ensure_dataset dataset_name w) = Return dataset) :
  let w' := snd (ensure_dataset dataset_name w) in
  dataset = dataset_name
  /\ assoc dataset_name (w_datasets w') <> None
  /\ (forall other,
        assoc other (w_datasets w) <> None \/ other <> dataset_name ->
        assoc other (w_datasets w') = assoc other (w_datasets w))
  /\ (w_fault w (GetDataset dataset_name) = None ->
      ensure_dataset dataset_name w'
      = (Return dataset_name,
         log INFO (GotDataset dataset_name)
           (emit (GetDataset dataset_name) w'))).
Proof.
  intros w'. unfold w'. revert Hreturns.
  rewrite ensure_dataset_run, get_dataset_run. cbn [fst snd].
  destruct (w_fault w (GetDataset dataset_name)) as [x|] eqn:F.
  - destruct x; try discriminate.
    rewrite create_dataset_run. simpl_world.
    destruct (w_fault w (CreateDataset dataset_name)); [discriminate|].
    destruct (assoc dataset_name (w_datasets w)) eqn:A; [discriminate|].
    cbn [fst snd]. intros H. injection H as <-. simpl_world.
    split; [reflexivity|].
    split; [rewrite (assoc_app_new dataset_name [] _ A); discriminate|].
    split; [intros other Ho; now apply assoc_app_old | discriminate].
  - destruct (assoc dataset_name (w_datasets w)) eqn:A.
    + cbn [fst snd]. intros H. injection H as <-. simpl_world.
      split; [reflexivity|]. split; [congruence|].
      split; [reflexivity|]. intros _.
      rewrite ensure_dataset_run, get_dataset_run. simpl_world.
      now rewrite F, A.
    + rewrite create_dataset_run. simpl_world.
      destruct (w_fault w (CreateDataset dataset_name)); [discriminate|].
      rewrite A. cbn [fst snd]. intros H. injection H as <-. simpl_world.
      split; [reflexivity|].
      split; [rewrite (assoc_app_new dataset_name [] _ A); discriminate|].
      split; [intros other Ho; now apply assoc_app_old|]. intros _.
      rewrite ensure_dataset_run, get_dataset_run. simpl_world.
      now rewrite F, (assoc_app_new dataset_name [] _ A).
Qed.

(** * The further properties at work *)

(** X2 on [gs://b/raw/orders/data.tar.gz]. *)
Lemma table_of_stem_witness :
  sanitized_base (py "gs://b/raw/orders" ++ slash :: py "data.tar"
                  ++ dot :: py "gz")
  = re_sub_ident (py "data.tar").
Proof.
  refine (proj1 (@table_of_stem (py "gs://b/raw/orders") (py "data.tar")
                   (py "gz") _ _ _ _)).
  - vm_compute. intuition discriminate.
  - vm_compute. intuition discriminate.
  - vm_compute. intuition discriminate.
  - vm_compute. reflexivity.
Defined.

(** X7 on a bucket with two folders. *)
Lemma load_all_datasets_returns_witness :
  exists fuel r,
    load_all_datasets (U := latin1) fuel (py "b") (py "raw/") []
      (store [py "raw/orders/a.parquet"; py "raw/items/b.parquet"] 3)
    = Some r.
Proof.
  refine (proj1 (@load_all_datasets_returns latin1 (py "b") (py "raw/") []
                   (store [py "raw/orders/a.parquet";
                           py "raw/items/b.parquet"] 3) _)).
  intros id. discriminate.
Defined.

(** X8 on a bucket that is not in the store. *)
Lemma missing_bucket_witness :
  load_all_datasets (U := latin1) 1 (py "nowhere") (py "raw/") []
    (store [] 0)
  = Some (Raise NotFound, emit (GetBucket (py "nowhere")) (store [] 0)).
Proof.
  refine (proj1 (@missing_bucket latin1 (py "nowhere") (py "raw/")
                   (py "raw_orders") [] (store [] 0) 1 _ _)).
  - intros e. reflexivity.
  - reflexivity.
Defined.

Lemma three_jobs_handles : NoDup (map job_id three_jobs).
Proof.
  change (NoDup [0; 1; 2]).
  repeat (constructor; [cbn; intuition discriminate|]). constructor.
Defined.



(** X10 on three jobs that are done. *)
Lemma scan_leaves_every_other_witness :
  exists w',
    scan three_jobs (store [] 0)
    = Some (Return (every_other three_jobs), w').
Proof.
  destruct (@scan_leaves_every_other three_jobs (store [] 0)
              three_jobs_handles (fun j _ => eq_refl) (fun j _ => eq_refl))
    as (w' & E & _).
  now exists w'.
Defined.


(** X11 on the two files of the folder [raw/orders]. *)
Lemma jobs_of_a_prefix_witness :
  map (fun j => (source_uri j, dest_table j))
    (submitted_since
       (store [py "raw/orders/jan.parquet"; py "raw/orders/feb.parquet"] 0)
       (snd (start_jobs (U := latin1) (py "b") (py "raw/orders")
               (py "raw_orders") []
               (store [py "raw/orders/jan.parquet";
                       py "raw/orders/feb.parquet"] 0))))
  = [(py "gs://b/raw/orders/jan.parquet", py "jan");
     (py "gs://b/raw/orders/feb.parquet", py "feb")].
Proof.
  pose proof (@jobs_of_a_prefix latin1 (py "b") (py "raw/orders")
                (py "raw_orders") []
                [py "raw/orders/jan.parquet"; py "raw/orders/feb.parquet"]
                (store [py "raw/orders/jan.parquet";
                        py "raw/orders/feb.parquet"] 0)
                (fun e => eq_refl) eq_refl) as K.
  cbv zeta in K. destruct K as (K & _). rewrite K.
  vm_compute. reflexivity.
Defined.

(** X12 on a store without datasets. *)
Lemma dataset_is_there_witness :
  assoc (py "raw_orders")
    (w_datasets (snd (ensure_dataset (py "raw_orders") (store [] 0))))
  <> None.
Proof.
  exact (proj1 (proj2 (@dataset_is_there (py "raw_orders") (store [] 0)
                         (py "raw_orders") eq_refl))).
Defined.
